(** * Interview-question pipeline of go-openai (interview.go, utils.go)

    A shallow embedding of the request-shaping and response-parsing code:
    Go strings are byte sequences, [int]/[int64] are integers in [Z],
    [float32] values are IEEE-754 binary32 numbers ([spec_float] at
    precision 24), pointers that may be nil are [option]s, and the random
    source, the completion service and the clock are oracles read through
    a small state monad whose failure is a Go run-time panic. *)

From Stdlib Require Import List ZArith Bool Lia Ascii String QArith.
From Stdlib Require Import SpecFloat.
From Stdlib Require Import Permutation.
Import ListNotations.

Local Open Scope Z_scope.

(** ** Go strings *)

(** A Go string is an immutable sequence of bytes; [len], indexing and
    slicing all count bytes. *)
Definition gostring := list ascii.

(** String literals of the source. *)
Definition lit (s : string) : gostring := list_ascii_of_string s.

Definition len (s : gostring) : Z := Z.of_nat (List.length s).

(** [s[i:j]] and [s[i:]] for indices already known to be in bounds. *)
Definition slice (s : gostring) (i j : Z) : gostring :=
  firstn (Z.to_nat (j - i)) (skipn (Z.to_nat i) s).

Definition slice_from (s : gostring) (i : Z) : gostring :=
  skipn (Z.to_nat i) s.

Module strings.

(** [strings.HasPrefix]. *)
Fixpoint HasPrefix (s prefix : gostring) {struct prefix} : bool :=
  match prefix, s with
  | [], _ => true
  | _ :: _, [] => false
  | p :: prefix', c :: s' => Ascii.eqb c p && HasPrefix s' prefix'
  end.

(** [strings.HasSuffix]. *)
Definition HasSuffix (s suffix : gostring) : bool :=
  HasPrefix (rev s) (rev suffix).

(** [strings.Index]: byte offset of the first occurrence of [substr],
    or [-1]. *)
Fixpoint Index (s substr : gostring) : Z :=
  if HasPrefix s substr then 0
  else match s with
       | [] => -1
       | _ :: s' => let i := Index s' substr in
                    if i <? 0 then -1 else i + 1
       end.

(** The UTF-8 encodings of the code points for which [unicode.IsSpace]
    holds: tab, LF, VT, FF, CR, space, U+0085, U+00A0, U+1680,
    U+2000..U+200A, U+2028, U+2029, U+202F, U+205F and U+3000.  A
    string starts (ends) with a white-space rune exactly when it starts
    (ends) with one of these byte sequences: any other byte sequence
    decodes to a different rune or to [utf8.RuneError]. *)
Definition byte (n : nat) : ascii := ascii_of_nat n.

Definition space_encodings : list gostring :=
  [ [byte 9]; [byte 10]; [byte 11]; [byte 12]; [byte 13]; [byte 32];
    [byte 194; byte 133]; [byte 194; byte 160];
    [byte 225; byte 154; byte 128];
    [byte 226; byte 128; byte 128]; [byte 226; byte 128; byte 129]; [byte 226; byte 128; byte 130];
    [byte 226; byte 128; byte 131]; [byte 226; byte 128; byte 132]; [byte 226; byte 128; byte 133];
    [byte 226; byte 128; byte 134]; [byte 226; byte 128; byte 135]; [byte 226; byte 128; byte 136];
    [byte 226; byte 128; byte 137]; [byte 226; byte 128; byte 138];
    [byte 226; byte 128; byte 168]; [byte 226; byte 128; byte 169]; [byte 226; byte 128; byte 175];
    [byte 226; byte 129; byte 159];
    [byte 227; byte 128; byte 128] ].

(** The first of the patterns [pats] that [s] starts with. *)
Definition leading (pats : list gostring) (s : gostring) : option gostring :=
  find (HasPrefix s) pats.

(** Drop leading occurrences of the patterns, at most [fuel] of them. *)
Fixpoint strip (pats : list gostring) (fuel : nat) (s : gostring) : gostring :=
  match fuel with
  | O => s
  | S fuel' =>
      match leading pats s with
      | Some p => strip pats fuel' (skipn (List.length p) s)
      | None => s
      end
  end.

(** [strings.TrimLeftFunc(s, unicode.IsSpace)]. *)
Definition TrimLeft (s : gostring) : gostring :=
  strip space_encodings (List.length s) s.

(** [strings.TrimRightFunc(s, unicode.IsSpace)]. *)
Definition TrimRight (s : gostring) : gostring :=
  rev (strip (map (@rev ascii) space_encodings) (List.length s) (rev s)).

(** [strings.TrimSpace]: all leading and trailing white space removed. *)
Definition TrimSpace (s : gostring) : gostring :=
  TrimRight (TrimLeft s).

(** [strings.Split(s, sep)] for a separator of one byte, which is how
    the parser calls it: the pieces between the occurrences of [sep],
    so that a string with [n] separators has [n + 1] pieces. *)
Fixpoint Split (s : gostring) (sep : ascii) : list gostring :=
  match s with
  | [] => [ [] ]
  | c :: s' =>
      if Ascii.eqb c sep then [] :: Split s' sep
      else match Split s' sep with
           | piece :: pieces => (c :: piece) :: pieces
           | [] => [ [c] ]
           end
  end.

(** [strings.ReplaceAll(s, old, "")] for a non-empty [old]: the
    occurrences of [old] are removed, scanning from the left. *)
Fixpoint remove_skip (old : gostring) (skip : nat) (s : gostring) : gostring :=
  match s with
  | [] => []
  | c :: s' =>
      match skip with
      | S k => remove_skip old k s'
      | O => if HasPrefix s old
             then remove_skip old (pred (List.length old)) s'
             else c :: remove_skip old O s'
      end
  end.

Definition RemoveAll (s old : gostring) : gostring :=
  match old with
  | [] => s
  | _ => remove_skip old O s
  end.

End strings.

Module strconv.

Inductive NumError := ErrSyntax | ErrRange.

Definition is_digit (c : ascii) : bool :=
  (48 <=? Z.of_nat (nat_of_ascii c)) && (Z.of_nat (nat_of_ascii c) <=? 57).

Definition digit (c : ascii) : Z := Z.of_nat (nat_of_ascii c) - 48.

(** The fast path of [Atoi]: a decimal accumulation that cannot
    overflow because the input has fewer than 19 bytes. *)
Fixpoint small_digits (s : gostring) (n : Z) : Z + NumError :=
  match s with
  | [] => inl n
  | ch :: s' =>
      if is_digit ch then small_digits s' (n * 10 + digit ch)
      else inr ErrSyntax
  end.

Definition maxUint64 : Z := 2 ^ 64 - 1.

(** The digit loop of [ParseUint(s, 10, 64)]; on overflow it reports a
    range error together with the largest value. *)
Fixpoint ParseUint_loop (s : gostring) (n : Z) : Z * option NumError :=
  match s with
  | [] => (n, None)
  | c :: s' =>
      if is_digit c then
        if n >=? maxUint64 / 10 + 1 then (maxUint64, Some ErrRange)
        else
          let n1 := n * 10 + digit c in
          if n1 >? maxUint64 then (maxUint64, Some ErrRange)
          else ParseUint_loop s' n1
      else (0, Some ErrSyntax)
  end.

Definition ParseUint (s : gostring) : Z * option NumError :=
  match s with
  | [] => (0, Some ErrSyntax)
  | _ => ParseUint_loop s 0
  end.

(** [ParseInt(s, 10, 0)] with a 64-bit [int]. *)
Definition ParseInt (s : gostring) : Z + NumError :=
  match s with
  | [] => inr ErrSyntax
  | c :: s' =>
      let neg := Ascii.eqb c "-" in
      let digits := if Ascii.eqb c "+" || neg then s' else s in
      match ParseUint digits with
      | (_, Some ErrSyntax) => inr ErrSyntax
      | (un, _) =>
          let cutoff := 2 ^ 63 in
          if negb neg && (un >=? cutoff) then inr ErrRange
          else if neg && (un >? cutoff) then inr ErrRange
          else inl (if neg then - un else un)
      end
  end.

(** [strconv.Atoi]: [inl n] when [err == nil]. *)
Definition Atoi (s : gostring) : Z + NumError :=
  let sLen := len s in
  if (0 <? sLen) && (sLen <? 19) then
    match s with
    | [] => inr ErrSyntax
    | s0 :: rest =>
        let signed := Ascii.eqb s0 "-" || Ascii.eqb s0 "+" in
        let digits := if signed then rest else s in
        if signed && (len digits <? 1) then inr ErrSyntax
        else match small_digits digits 0 with
             | inl n => inl (if Ascii.eqb s0 "-" then - n else n)
             | inr e => inr e
             end
    end
  else ParseInt s.

End strconv.

(** ** Enumeration stripping (interview.go) *)

Definition stripLeadingNumber (question punc : gostring) : gostring :=
  let ques := question in
  (* fmt.Sprintf("%s", punc) is punc itself *)
  let pos := strings.Index ques punc in
  (* i.e. "1) " through "99) " or "1. ", "3." *)
  let ques :=
    if (pos >? -1) && (pos <=? 2) then
      let tmp := slice ques 0 pos in
      match strconv.Atoi tmp with
      | inl _ => slice_from ques (pos + 1)
      | inr _ => ques
      end
    else ques in
  strings.TrimSpace ques.

Definition stripLeadingNumbers (question : gostring) : gostring :=
  let result := stripLeadingNumber question (lit ".") in
  let result := stripLeadingNumber result (lit ")") in
  result.

Definition parseText (question : gostring) : gostring :=
  let ques := strings.TrimSpace question in
  let ques := if strings.HasPrefix ques (lit "-") then slice_from ques 1 else ques in
  let ques := stripLeadingNumbers ques in
  strings.TrimSpace ques.

(** ** Numbers *)

(** Two's-complement wrap-around of [int64] arithmetic. *)
Definition wrap64 (n : Z) : Z := (n + 2 ^ 63) mod 2 ^ 64 - 2 ^ 63.

Definition minInt64 : Z := - 2 ^ 63.
Definition maxInt64 : Z := 2 ^ 63 - 1.

(** [float32]: IEEE-754 binary32, 24 bits of precision. *)
Definition float32 := spec_float.

Module f32.

Definition prec : Z := 24.
Definition emax : Z := 128.

Definition mul : float32 -> float32 -> float32 := SFmul prec emax.
Definition div : float32 -> float32 -> float32 := SFdiv prec emax.

(** The conversion [float32(n)] of an integer, rounded to nearest even. *)
Definition of_int (n : Z) : float32 := binary_normalize prec emax n 0 false.

(** A decimal constant [num/den] of the source converted to [float32]:
    the nearest binary32 value, which is what the correctly rounded
    quotient of two exactly representable integers gives. *)
Definition const (num den : Z) : float32 := div (of_int num) (of_int den).

(** The conversion [int64(f)]: the fraction is discarded.  For a NaN,
    an infinity or a value out of range the result is
    implementation-specific; amd64 gives the smallest [int64]. *)
Definition to_int64 (f : float32) : Z :=
  match f with
  | S754_zero _ => 0
  | S754_finite s m e =>
      let a := if 0 <=? e then Z.pos m * 2 ^ e else Z.pos m / 2 ^ (- e) in
      let v := if s then - a else a in
      if (minInt64 <=? v) && (v <=? maxInt64) then v else minInt64
  | _ => minInt64
  end.

(** The exact rational value of a finite float. *)
Definition to_Q (f : float32) : option Q :=
  match f with
  | S754_zero _ => Some (0 # 1)%Q
  | S754_finite s m e =>
      let n := if s then Z.neg m else Z.pos m in
      Some (if 0 <=? e then inject_Z (n * 2 ^ e)
            else Qmake n (Z.to_pos (2 ^ (- e))))
  | _ => None
  end.

Definition one : float32 := of_int 1.

End f32.

(** ** Data model (interview.go) *)

Definition InterviewDefaultCap : Z := 5.
Definition InterviewDefaultEngine : gostring := lit "text-davinci-001".
Definition InterviewMaxCap : Z := 50.

Record InterviewInput := {
  JobTitle : option gostring;
  JobDescription : option gostring
}.

Record InterviewOptions := {
  (* Cap for max number of questions to take *)
  Cap : option Z;
  (* If true, received answers are randomly shuffled *)
  Shuffle_flag : bool
}.

Definition GetCap (o : InterviewOptions) : Z :=
  let capped := InterviewDefaultCap in
  let capped := match Cap o with Some c => c | None => capped end in
  let capped := if capped >? InterviewMaxCap then InterviewMaxCap else capped in
  capped.

Record InterviewRequestSettings := {
  Engine : gostring;
  FrequencyPenalty : float32;
  MaxTokens : option Z;
  PresencePenalty : float32;
  Temperature : option float32;
  TopP : option float32;
  User : gostring
}.

Record InterviewRequest := {
  Prompt : gostring;
  Settings : InterviewRequestSettings
}.

Record InterviewQuestion := {
  Index : Z;
  Question : gostring
}.

Record InterviewResponse := {
  Request : InterviewRequest;
  Duration : Z;
  Options : option InterviewOptions;
  Questions : list InterviewQuestion
}.

(** A [*InterviewResponse] that may be nil.  A nil slice and an empty
    slice are both the empty list: the code never builds an empty
    non-nil slice of questions. *)
Definition HasQuestions (r : option InterviewResponse) : bool :=
  match r with
  | None => false
  | Some r => 0 <? Z.of_nat (List.length (Questions r))
  end.

(** Modelled from the spec: the request, choice and response types of the
    completion service are declared outside the pipeline's files; the
    request has the fields the interface section lists (model identifier,
    prompt, echo flag, penalties, max tokens, N, stream flag, temperature,
    top-p, user identifier) and a response is a sequence of choices, each
    carrying generated text and a finish reason. *)
Record CompletionRequest := {
  cr_Model : gostring;
  cr_Prompt : gostring;
  cr_MaxTokens : Z;
  cr_Temperature : float32;
  cr_TopP : float32;
  cr_N : Z;
  cr_Stream : bool;
  cr_Echo : bool;
  cr_PresencePenalty : float32;
  cr_FrequencyPenalty : float32;
  cr_User : gostring
}.

Record CompletionChoice := {
  Text : gostring;
  FinishReason : gostring
}.

Record CompletionResponse := {
  Choices : list CompletionChoice
}.

(** Go [error] values: the two validation errors are made by
    [errors.New]; an error of the completion call is opaque. *)
Inductive error :=
| errors_New (msg : gostring)
| completion_error (cause : gostring).

Definition ErrInvalidInput : error :=
  errors_New (lit "must specify a job title or description").
Definition ErrMissingSettings : error :=
  errors_New (lit "request settings are required").

(** ** Prompt building *)

Definition LF : ascii := ascii_of_nat 10.
Definition CR : ascii := ascii_of_nat 13.

(** [newLineRe.ReplaceAllString(input, " ")] for the pattern [\r?\n]. *)
Fixpoint replaceNewLines (input : gostring) : gostring :=
  match input with
  | [] => []
  | c :: rest =>
      if Ascii.eqb c LF then " "%char :: replaceNewLines rest
      else
        match rest with
        | c' :: rest' =>
            if Ascii.eqb c CR && Ascii.eqb c' LF
            then " "%char :: replaceNewLines rest'
            else c :: replaceNewLines rest
        | [] => [c]
        end
  end.

(** The bullet glyph U+2022 in UTF-8. *)
Definition bullet : gostring :=
  [ascii_of_nat 226; ascii_of_nat 128; ascii_of_nat 162].

Definition formatInterviewInput (input : gostring) : gostring :=
  let output := replaceNewLines input in
  let output := strings.RemoveAll output bullet in
  output.

Definition getInterviewPrompt (jobTitle jobDesc : gostring) : gostring :=
  if (len jobTitle >? 0) && (len jobDesc >? 0) then
    lit "Create a list of questions for my interview with a "
      ++ formatInterviewInput jobTitle ++ lit ", " ++ formatInterviewInput jobDesc
  else if len jobTitle >? 0 then
    lit "Create a list of questions for my interview with a "
      ++ formatInterviewInput jobTitle
  else if len jobDesc >? 0 then
    lit "Create a list of questions for my interview with a job description of "
      ++ formatInterviewInput jobDesc
  else [].

Definition trimStr (input : option gostring) : gostring :=
  match input with
  | None => []
  | Some s => strings.TrimSpace s
  end.

Definition NewInterviewOptions (cap : Z) : InterviewOptions :=
  {| Cap := Some cap; Shuffle_flag := false |}.

Definition NewInterviewSettings (user : gostring) : InterviewRequestSettings :=
  {| Engine := InterviewDefaultEngine;
     FrequencyPenalty := f32.const 75 100;
     MaxTokens := Some 175;
     PresencePenalty := f32.const 7 10;
     Temperature := Some f32.one;
     TopP := Some (f32.const 85 100);
     User := user |}.

(** [InterviewResponse.QuestionText].  The loop variable shadows the
    receiver, so the length compared with [index+1] is that of the
    question's text.  A nil receiver panics on [r.Questions]. *)
Fixpoint QuestionText_loop (index : Z) (questions : list InterviewQuestion)
    (sb : gostring) : gostring :=
  match questions with
  | [] => sb
  | r :: questions' =>
      let sb := sb ++ Question r in
      let sb := if index + 1 <? len (Question r) then sb ++ [LF; LF] else sb in
      QuestionText_loop (index + 1) questions' sb
  end.

Definition QuestionText (r : option InterviewResponse) : option gostring :=
  match r with
  | None => None
  | Some r => Some (QuestionText_loop 0 (Questions r) [])
  end.

(** ** Effects: random source, completion service, clock *)

Record World := {
  rand_reads : nat;                           (* draws made so far *)
  completion_calls : list CompletionRequest;  (* requests sent, oldest first *)
  clock_reads : nat
}.

Definition M (A : Type) : Type := World -> option (A * World).

Definition ret {A} (a : A) : M A := fun w => Some (a, w).

Definition bind {A B} (m : M A) (k : A -> M B) : M B :=
  fun w => match m w with
           | Some (a, w') => k a w'
           | None => None
           end.

(** A run-time panic. *)
Definition panic {A} : M A := fun _ => None.

Notation "x <- m ;; k" := (bind m (fun x => k))
  (at level 61, m at next level, right associativity).

Section Pipeline.

(** [rand.Int(rand.Reader, bound)] at the k-th draw: a value, or [None]
    when reading the source fails. *)
Variable rand_Int : nat -> Z -> option Z.

(** The completion call for a request. *)
Variable CreateCompletion : CompletionRequest -> CompletionResponse + error.

(** The k-th reading of the clock, in nanoseconds. *)
Variable time_Now : nat -> Z.

Definition rand_read (bound : Z) : M (option Z) := fun w =>
  if bound <=? 0 then None   (* rand.Int panics when the bound is <= 0 *)
  else Some (rand_Int (rand_reads w) bound,
             {| rand_reads := S (rand_reads w);
                completion_calls := completion_calls w;
                clock_reads := clock_reads w |}).

Definition call_completion (request : CompletionRequest)
  : M (CompletionResponse + error) := fun w =>
  Some (CreateCompletion request,
        {| rand_reads := rand_reads w;
           completion_calls := completion_calls w ++ [request];
           clock_reads := clock_reads w |}).

Definition now : M Z := fun w =>
  Some (time_Now (clock_reads w),
        {| rand_reads := rand_reads w;
           completion_calls := completion_calls w;
           clock_reads := S (clock_reads w) |}).

(** utils.go *)

Definition random (min max : Z) : M Z :=
  let bg := wrap64 (max - min) in
  r <- rand_read bg ;;
  match r with
  | None => ret min
  | Some n => ret (wrap64 (wrap64 n + min))
  end.

Definition intPtrRand (min max : Z) : M (option Z) :=
  r <- random min max ;;
  ret (Some r).

Definition float32Rand (min max : float32) : M float32 :=
  r <- random (f32.to_int64 (f32.mul min (f32.of_int 100)))
              (f32.to_int64 (f32.mul max (f32.of_int 100))) ;;
  let r2 := f32.div (f32.of_int r) (f32.of_int 100) in
  ret r2.

Definition float32PtrRand (min max : float32) : M (option float32) :=
  r2 <- float32Rand min max ;;
  ret (Some r2).

(** interview.go *)

Definition NewInterviewSettingsRand (user : gostring) : M InterviewRequestSettings :=
  (* Use TopP most of the time but temp sometimes *)
  let temp := Some f32.one in
  topP <- float32PtrRand (f32.const 3 10) (f32.const 9 10) ;;
  rTempTop <- random 1 10 ;;
  tt <- (if rTempTop >? 7 then
           temp' <- float32PtrRand (f32.const 3 10) (f32.const 9 10) ;;
           ret (temp', Some f32.one)
         else ret (temp, topP)) ;;
  fp <- float32Rand (f32.const 2 10) (f32.const 85 100) ;;
  mt <- intPtrRand 175 275 ;;
  pp <- float32Rand (f32.const 1 10) (f32.const 8 10) ;;
  ret {| Engine := InterviewDefaultEngine;
         FrequencyPenalty := fp;
         MaxTokens := mt;
         PresencePenalty := pp;
         Temperature := fst tt;
         TopP := snd tt;
         User := user |}.

(** Dereferencing a nil pointer panics. *)
Definition deref {A} (p : option A) : M A :=
  match p with
  | Some a => ret a
  | None => panic
  end.

Definition mapInterviewSettings (settings : InterviewRequestSettings)
    (prompt : gostring) : M CompletionRequest :=
  maxTokens <- deref (MaxTokens settings) ;;
  temperature <- deref (Temperature settings) ;;
  topP <- deref (TopP settings) ;;
  ret {| cr_Echo := false;
         cr_FrequencyPenalty := FrequencyPenalty settings;
         cr_MaxTokens := maxTokens;
         cr_N := 1;
         cr_PresencePenalty := PresencePenalty settings;
         cr_Prompt := prompt;
         cr_Stream := false;
         cr_Temperature := temperature;
         cr_TopP := topP;
         cr_User := User settings;
         cr_Model := Engine settings |}.

(** [questions[i]], with the bounds check of the slice of length [n]. *)
Definition index_at (questions : list InterviewQuestion) (n : nat) (i : Z)
  : M InterviewQuestion :=
  if (0 <=? i) && (i <? Z.of_nat n) then deref (nth_error questions (Z.to_nat i))
  else panic.

Fixpoint store_at (questions : list InterviewQuestion) (i : nat)
    (q : InterviewQuestion) : list InterviewQuestion :=
  match questions, i with
  | [], _ => []
  | _ :: rest, O => q :: rest
  | q0 :: rest, S i' => q0 :: store_at rest i' q
  end.

(** The loop of [Shuffle]: [questions] is the caller's array, [n] the
    length of the slice still to be shuffled; the swap happens in place,
    so the caller sees the permuted array. *)
Fixpoint Shuffle_loop (n : nat) (questions : list InterviewQuestion)
  : M (list InterviewQuestion) :=
  match n with
  | O => ret questions
  | S n' =>
      randIndex <- random 0 (Z.of_nat n) ;;
      picked <- index_at questions n randIndex ;;
      last <- index_at questions n (Z.of_nat n') ;;
      let questions := store_at questions n' picked in
      let questions := store_at questions (Z.to_nat randIndex) last in
      Shuffle_loop n' questions
  end.

Definition Shuffle (questions : list InterviewQuestion)
  : M (list InterviewQuestion) :=
  Shuffle_loop (List.length questions) questions.

(** The retention test of the parser, applied to a piece as split. *)
Definition retained (part : gostring) : bool :=
  (len part >? 0) && strings.HasSuffix part (lit "?").

Fixpoint parse_parts (parts : list gostring) (data : list InterviewQuestion)
  : list InterviewQuestion :=
  match parts with
  | [] => data
  | part :: parts' =>
      (* Last question can be truncated. *)
      if retained part then
        let ques := parseText part in
        parse_parts parts'
          (data ++ [ {| Index := Z.of_nat (List.length data) + 1;
                        Question := ques |} ])
      else parse_parts parts' data
  end.

Definition parseInterviewChoice (ch : CompletionChoice) (shuffle : bool)
  : M (list InterviewQuestion) :=
  if len (Text ch) =? 0 then ret []
  else
    let parts := strings.Split (Text ch) LF in
    let data := parse_parts parts [] in
    if Z.of_nat (List.length data) =? 0 then ret []
    else if shuffle then Shuffle data
    else ret data.

(** The inner loop of [InterviewQuestions] over the items of a choice. *)
Fixpoint take_items (quesCap : Z) (items questions : list InterviewQuestion)
  : list InterviewQuestion :=
  match items with
  | [] => questions
  | qu :: items' =>
      if Z.of_nat (List.length questions) =? quesCap then questions
      else
        (* Index is mostly for shuffle case to reset *)
        take_items quesCap items'
          (questions ++ [ {| Index := Z.of_nat (List.length questions) + 1;
                             Question := Question qu |} ])
  end.

Fixpoint take_choices (quesCap : Z) (shuffle : bool)
    (choices : list CompletionChoice) (questions : list InterviewQuestion)
  : M (list InterviewQuestion) :=
  match choices with
  | [] => ret questions
  | ch :: choices' =>
      items <- parseInterviewChoice ch shuffle ;;
      take_choices quesCap shuffle choices' (take_items quesCap items questions)
  end.

Definition set_Engine (settings : InterviewRequestSettings) (engine : gostring)
  : InterviewRequestSettings :=
  {| Engine := engine;
     FrequencyPenalty := FrequencyPenalty settings;
     MaxTokens := MaxTokens settings;
     PresencePenalty := PresencePenalty settings;
     Temperature := Temperature settings;
     TopP := TopP settings;
     User := User settings |}.

(** The default-fill of the engine, done through the caller's pointer. *)
Definition fill_engine (settings : InterviewRequestSettings)
  : InterviewRequestSettings :=
  if len (Engine settings) =? 0
  then set_Engine settings InterviewDefaultEngine else settings.

(** [Client.InterviewQuestions].  [settings] and [options] are pointers
    that may be nil.  The result is the returned pair (a response or an
    error) together with the caller's settings object as the call leaves
    it, because the default engine is filled in through the pointer. *)
Definition InterviewQuestions (input : InterviewInput)
    (settings : option InterviewRequestSettings)
    (options : option InterviewOptions)
  : M ((InterviewResponse + error) * option InterviewRequestSettings) :=
  start <- now ;;
  let jobTitle := trimStr (JobTitle input) in
  let jobDesc := trimStr (JobDescription input) in
  if (len jobTitle =? 0) && (len jobDesc =? 0) then
    ret (inr ErrInvalidInput, settings)
  else
    match settings with
    | None => ret (inr ErrMissingSettings, settings)
    | Some settings =>
        let settings := fill_engine settings in
        let options :=
          match options with
          | None => NewInterviewOptions InterviewDefaultCap
          | Some o => o
          end in
        let prompt := getInterviewPrompt jobTitle jobDesc in
        request <- mapInterviewSettings settings prompt ;;
        let quesCap := GetCap options in
        resp <- call_completion request ;;
        match resp with
        | inr err => ret (inr err, Some settings)
        | inl resp =>
            questions <- take_choices quesCap (Shuffle_flag options)
                           (Choices resp) [] ;;
            stop <- now ;;
            ret (inl {| Request := {| Prompt := prompt; Settings := settings |};
                        Duration := wrap64 (stop - start);
                        Options := Some options;
                        Questions := questions |},
                 Some settings)
        end
    end.

End Pipeline.

Definition world0 : World :=
  {| rand_reads := O; completion_calls := []; clock_reads := O |}.

(** * Properties *)

(** ** Strings *)

Module StringFacts.
Import strings.

Lemma HasPrefix_true (s p : gostring) :
  HasPrefix s p = true <-> exists t, s = p ++ t.
Proof.
  revert s; induction p as [|c p IH]; intros s; simpl.
  - split; [exists s; reflexivity | reflexivity].
  - destruct s as [|d s]; simpl.
    + split; [discriminate | intros [t Ht]; discriminate].
    + rewrite andb_true_iff, Ascii.eqb_eq, IH. split.
      * intros [-> [t ->]]. exists t; reflexivity.
      * intros [t Ht]. injection Ht as -> ->. split; [reflexivity | exists t; reflexivity].
Qed.

Lemma HasPrefix_skipn (s p : gostring) :
  HasPrefix s p = true -> s = p ++ skipn (List.length p) s.
Proof.
  intros H. apply HasPrefix_true in H as [t ->].
  rewrite skipn_app, skipn_all, Nat.sub_diag. reflexivity.
Qed.

Lemma HasPrefix_app_l (s post p : gostring) :
  HasPrefix s p = true -> HasPrefix (s ++ post) p = true.
Proof.
  rewrite !HasPrefix_true. intros [t ->]. exists (t ++ post).
  now rewrite app_assoc.
Qed.

Lemma HasSuffix_true (s p : gostring) :
  HasSuffix s p = true <-> exists t, s = t ++ p.
Proof.
  unfold HasSuffix. rewrite HasPrefix_true. split.
  - intros [t Ht]. exists (rev t).
    rewrite <- (rev_involutive s), Ht, rev_app_distr, rev_involutive. reflexivity.
  - intros [t ->]. exists (rev t). apply rev_app_distr.
Qed.

(** *** [Index] finds the first occurrence *)

Lemma Index_lower (s sub : gostring) : -1 <= Index s sub.
Proof.
  induction s as [|c s IH]; simpl.
  - destruct (HasPrefix [] sub); lia.
  - destruct (HasPrefix (c :: s) sub); [lia|].
    destruct (Index s sub <? 0) eqn:E; [lia|]. apply Z.ltb_ge in E. lia.
Qed.

Lemma Index_found (s sub : gostring) :
  0 <= Index s sub ->
  s = firstn (Z.to_nat (Index s sub)) s ++ sub
        ++ skipn (Z.to_nat (Index s sub) + List.length sub) s.
Proof.
  induction s as [|c s IH]; simpl.
  - destruct (HasPrefix [] sub) eqn:E; [|lia]. intros _.
    apply HasPrefix_true in E as [t Ht].
    symmetry in Ht. apply app_eq_nil in Ht as [-> ->]. reflexivity.
  - destruct (HasPrefix (c :: s) sub) eqn:E.
    + intros _. simpl. apply HasPrefix_skipn in E. exact E.
    + destruct (Index s sub <? 0) eqn:E'; [lia|]. apply Z.ltb_ge in E'.
      intros _. specialize (IH E').
      replace (Z.to_nat (Index s sub + 1)) with (S (Z.to_nat (Index s sub))) by lia.
      simpl. f_equal. exact IH.
Qed.

Lemma Index_first (s : gostring) (c : ascii) :
  0 <= Index s [c] -> ~ In c (firstn (Z.to_nat (Index s [c])) s).
Proof.
  induction s as [|d s IH]; simpl.
  - intros _ [].
  - destruct (Ascii.eqb d c) eqn:E; simpl.
    + intros _ [].
    + destruct (Index s [c] <? 0) eqn:E'; [lia|]. apply Z.ltb_ge in E'.
      intros _.
      replace (Z.to_nat (Index s [c] + 1)) with (S (Z.to_nat (Index s [c]))) by lia.
      simpl. intros [-> | H].
      * rewrite Ascii.eqb_refl in E. discriminate.
      * exact (IH E' H).
Qed.

(** *** Stripping leading patterns *)

Section Strip.
Variable pats : list gostring.
Hypothesis pats_nonempty : forall p, In p pats -> p <> [].

Lemma leading_Some (s p : gostring) :
  leading pats s = Some p -> In p pats /\ HasPrefix s p = true.
Proof. apply find_some. Qed.

Lemma leading_None (s : gostring) :
  leading pats s = None <-> forall p, In p pats -> HasPrefix s p = false.
Proof.
  unfold leading. split.
  - intros H p Hp. exact (find_none _ _ H p Hp).
  - clear pats_nonempty. induction pats as [|q l IH]; simpl; intros H.
    + reflexivity.
    + rewrite (H q (or_introl eq_refl)). apply IH.
      intros p Hp. apply H. now right.
Qed.

Lemma strip_fixed (n : nat) (s : gostring) :
  leading pats s = None -> strip pats n s = s.
Proof. intros H. destruct n; simpl; [|rewrite H]; reflexivity. Qed.

Lemma strip_is_suffix (n : nat) (s : gostring) :
  exists pre, s = pre ++ strip pats n s.
Proof.
  revert s; induction n as [|n IH]; intros s; simpl.
  - exists []. reflexivity.
  - destruct (leading pats s) as [p|] eqn:E.
    + apply leading_Some in E as [_ E]. apply HasPrefix_skipn in E.
      destruct (IH (skipn (List.length p) s)) as [pre Hpre].
      exists (p ++ pre). rewrite <- app_assoc, <- Hpre. exact E.
    + exists []. reflexivity.
Qed.

Lemma strip_done (n : nat) (s : gostring) :
  (List.length s <= n)%nat -> leading pats (strip pats n s) = None.
Proof.
  revert s; induction n as [|n IH]; intros s Hn; simpl.
  - destruct s; [|simpl in Hn; lia].
    apply leading_None. intros p Hp.
    specialize (pats_nonempty p Hp). destruct p; [congruence | reflexivity].
  - destruct (leading pats s) as [p|] eqn:E; [|exact E].
    apply leading_Some in E as [Hp E]. apply IH.
    specialize (pats_nonempty p Hp).
    apply HasPrefix_skipn in E.
    assert (List.length s = (List.length p + List.length (skipn (List.length p) s))%nat)
      by (rewrite E at 1; apply length_app).
    destruct p; [congruence|]. simpl in *. lia.
Qed.

(** A final byte that occurs in no pattern is never stripped. *)
Lemma strip_keeps_last (c : ascii) (n : nat) (s : gostring) :
  (forall p, In p pats -> ~ In c p) ->
  exists t, strip pats n (s ++ [c]) = t ++ [c].
Proof.
  intros Hc. revert s; induction n as [|n IH]; intros s; simpl.
  - exists s. reflexivity.
  - destruct (leading pats (s ++ [c])) as [p|] eqn:E; [|exists s; reflexivity].
    apply leading_Some in E as [Hp E].
    apply HasPrefix_true in E as [rest Hrest].
    rewrite Hrest, skipn_app, skipn_all, Nat.sub_diag. simpl.
    destruct (exists_last (l := rest)) as [rest' [d ->]].
    + intros ->. rewrite app_nil_r in Hrest. subst p.
      apply (Hc _ Hp). apply in_or_app. right. now left.
    + rewrite app_assoc in Hrest. apply app_inj_tail in Hrest as [_ <-].
      apply IH.
Qed.
End Strip.

(** *** [TrimSpace] *)

Definition rev_encodings : list gostring := map (@rev ascii) space_encodings.

(** No white space at either end. *)
Definition trimmed (s : gostring) : Prop :=
  leading space_encodings s = None /\ leading rev_encodings (rev s) = None.

Lemma space_encodings_nonempty p : In p space_encodings -> p <> [].
Proof.
  intros H ->. revert H.
  assert (E : existsb (fun p => match p with [] => true | _ => false end)
                space_encodings = false) by reflexivity.
  intros H. rewrite <- not_true_iff_false in E. apply E.
  apply existsb_exists. exists []. split; [exact H | reflexivity].
Qed.

Lemma rev_encodings_nonempty p : In p rev_encodings -> p <> [].
Proof.
  unfold rev_encodings. rewrite in_map_iff. intros [q [<- Hq]] E.
  apply space_encodings_nonempty in Hq. apply Hq.
  rewrite <- (rev_involutive q), E. reflexivity.
Qed.

Lemma TrimLeft_is_suffix s : exists pre, s = pre ++ TrimLeft s.
Proof. apply strip_is_suffix. Qed.

Lemma TrimRight_is_prefix s : exists post, s = TrimRight s ++ post.
Proof.
  unfold TrimRight.
  destruct (strip_is_suffix rev_encodings (List.length s) (rev s)) as [pre H].
  exists (rev pre). fold rev_encodings.
  rewrite <- rev_app_distr, <- H, rev_involutive. reflexivity.
Qed.

Lemma TrimSpace_trimmed s : trimmed (TrimSpace s).
Proof.
  unfold TrimSpace, trimmed. split.
  - assert (L : leading space_encodings (TrimLeft s) = None)
      by (apply strip_done; [apply space_encodings_nonempty | lia]).
    destruct (TrimRight_is_prefix (TrimLeft s)) as [post Hpost].
    rewrite leading_None in *. intros p Hp.
    specialize (L p Hp). rewrite Hpost in L.
    destruct (HasPrefix (TrimRight (TrimLeft s)) p) eqn:E; [|reflexivity].
    rewrite (HasPrefix_app_l _ post _ E) in L. discriminate.
  - unfold TrimRight. rewrite rev_involutive. fold rev_encodings.
    apply strip_done; [apply rev_encodings_nonempty | rewrite length_rev; lia].
Qed.

Lemma TrimSpace_fixed s : trimmed s -> TrimSpace s = s.
Proof.
  intros [L R]. unfold TrimSpace, TrimLeft.
  rewrite (strip_fixed _ _ _ L). unfold TrimRight. fold rev_encodings.
  rewrite (strip_fixed _ _ _ R). apply rev_involutive.
Qed.

Lemma TrimSpace_idempotent s : TrimSpace (TrimSpace s) = TrimSpace s.
Proof. apply TrimSpace_fixed, TrimSpace_trimmed. Qed.

Definition qmark : ascii := "?"%char.

Lemma qmark_not_space p : In p space_encodings -> ~ In qmark p.
Proof.
  intros Hp Hq.
  assert (E : existsb (existsb (Ascii.eqb qmark)) space_encodings = false)
    by reflexivity.
  rewrite <- not_true_iff_false in E. apply E.
  apply existsb_exists. exists p. split; [exact Hp|].
  apply existsb_exists. exists qmark. split; [exact Hq | apply Ascii.eqb_refl].
Qed.

(** A string that ends with a question mark. *)
Definition ends_qmark (s : gostring) : Prop := exists t, s = t ++ [qmark].

Lemma TrimSpace_ends_qmark s : ends_qmark s -> ends_qmark (TrimSpace s).
Proof.
  intros [t ->]. unfold TrimSpace, TrimLeft.
  destruct (strip_keeps_last space_encodings qmark
              (List.length (t ++ [qmark])) t qmark_not_space) as [u ->].
  exists u. unfold TrimRight. fold rev_encodings.
  rewrite strip_fixed; [apply rev_involutive|].
  rewrite rev_app_distr. reflexivity.
Qed.

(** A non-empty suffix of such a string ends with the question mark
    too. *)
Lemma suffix_ends_qmark (a s : gostring) :
  ends_qmark (a ++ s) -> s <> [] -> ends_qmark s.
Proof.
  intros [t Ht] Hs.
  destruct (exists_last Hs) as [s' [d ->]].
  rewrite app_assoc in Ht. apply app_inj_tail in Ht as [_ ->].
  exists s'. reflexivity.
Qed.

(** A byte of some white-space encoding. *)
Definition space_byte (c : ascii) : Prop :=
  exists p, In p space_encodings /\ In c p.

Lemma not_space_byte (c : ascii) :
  existsb (existsb (Ascii.eqb c)) space_encodings = false -> ~ space_byte c.
Proof.
  intros E [p [Hp Hc]]. rewrite <- not_true_iff_false in E. apply E.
  apply existsb_exists. exists p. split; [exact Hp|].
  apply existsb_exists. exists c. split; [exact Hc | apply Ascii.eqb_refl].
Qed.

(** What [strip] drops is made of pattern bytes. *)
Lemma strip_cut pats (n : nat) : forall s,
  exists pre, s = pre ++ strip pats n s /\
              forall c, In c pre -> exists p, In p pats /\ In c p.
Proof.
  induction n as [|n IH]; intros s; simpl.
  - exists []. split; [reflexivity | intros c []].
  - destruct (leading pats s) as [p|] eqn:E.
    + apply leading_Some in E as [Hp E]. apply HasPrefix_skipn in E.
      destruct (IH (skipn (List.length p) s)) as [pre [Hpre Hc]].
      exists (p ++ pre). split.
      * rewrite <- app_assoc, <- Hpre. exact E.
      * intros c Hin. apply in_app_or in Hin as [Hin|Hin];
          [exists p; split; assumption | apply Hc, Hin].
    + exists []. split; [reflexivity | intros c []].
Qed.

(** [TrimSpace] cuts white space only. *)
Lemma TrimSpace_cut s :
  exists pre post, s = pre ++ TrimSpace s ++ post /\
                   (forall c, In c pre -> space_byte c) /\
                   (forall c, In c post -> space_byte c).
Proof.
  unfold TrimSpace.
  destruct (strip_cut space_encodings (List.length s) s) as [pre [Hpre Bpre]].
  fold (TrimLeft s) in Hpre.
  destruct (strip_cut rev_encodings (List.length (TrimLeft s)) (rev (TrimLeft s)))
    as [post [Hpost Bpost]].
  exists pre, (rev post). split; [|split].
  - unfold TrimRight. fold rev_encodings.
    rewrite <- rev_app_distr, <- Hpost, rev_involutive. exact Hpre.
  - exact Bpre.
  - intros c Hc. apply in_rev in Hc. destruct (Bpost c Hc) as [p [Hp Hin]].
    unfold rev_encodings in Hp. apply in_map_iff in Hp as [q [<- Hq]].
    exists q. split; [exact Hq | apply in_rev, Hin].
Qed.

End StringFacts.

(** ** Enumeration stripping *)

Module StripFacts.
Import strings StringFacts.

(** The guard of [stripLeadingNumber]: the punctuation is found at
    offset 0 to 2 and [strconv.Atoi] accepts the bytes before it. *)
Definition marker (question punc : gostring) : bool :=
  let pos := Index question punc in
  (pos >? -1) && (pos <=? 2) &&
  match strconv.Atoi (slice question 0 pos) with
  | inl _ => true
  | inr _ => false
  end.

Lemma stripLeadingNumber_marker (question punc : gostring) :
  stripLeadingNumber question punc =
  TrimSpace (if marker question punc
             then slice_from question (Index question punc + 1)
             else question).
Proof.
  unfold stripLeadingNumber, marker.
  destruct ((Index question punc >? -1) && (Index question punc <=? 2));
    [|reflexivity].
  simpl. destruct (strconv.Atoi _); reflexivity.
Qed.

Lemma stripLeadingNumber_trimmed question punc :
  trimmed (stripLeadingNumber question punc).
Proof. rewrite stripLeadingNumber_marker. apply TrimSpace_trimmed. Qed.

Lemma stripLeadingNumber_no_marker question punc :
  trimmed question -> marker question punc = false ->
  stripLeadingNumber question punc = question.
Proof.
  intros T M. rewrite stripLeadingNumber_marker, M. now apply TrimSpace_fixed.
Qed.

Lemma marker_range question punc :
  marker question punc = true <->
  0 <= Index question punc <= 2 /\
  exists n, strconv.Atoi (slice question 0 (Index question punc)) = inl n.
Proof.
  unfold marker. rewrite !andb_true_iff, Z.gtb_lt, Z.leb_le.
  destruct (strconv.Atoi _) as [n|e]; split.
  - intros [[? ?] _]. split; [lia | exists n; reflexivity].
  - intros [? _]. repeat split; lia.
  - intros [_ ?]; discriminate.
  - intros [_ [n ?]]; discriminate.
Qed.

Lemma stripLeadingNumber_ends_qmark question c :
  c <> qmark -> ends_qmark question ->
  ends_qmark (stripLeadingNumber question [c]).
Proof.
  intros Hc Hq. rewrite stripLeadingNumber_marker.
  apply TrimSpace_ends_qmark.
  destruct (marker question [c]) eqn:M; [|exact Hq].
  apply marker_range in M as [[Hpos _] _].
  pose proof (Index_found question [c] Hpos) as F.
  unfold slice_from.
  replace (Z.to_nat (Index question [c] + 1))
    with (Z.to_nat (Index question [c]) + List.length [c])%nat by (simpl; lia).
  set (pre := firstn _ question) in F. set (post := skipn _ question) in *.
  apply (suffix_ends_qmark (pre ++ [c])).
  - rewrite <- app_assoc, <- F. exact Hq.
  - intros E. rewrite E, app_nil_r in F. destruct Hq as [t Ht].
    rewrite Ht in F. apply app_inj_tail in F as [_ F]. congruence.
Qed.

Lemma stripLeadingNumbers_ends_qmark question :
  ends_qmark question -> ends_qmark (stripLeadingNumbers question).
Proof.
  intros H. unfold stripLeadingNumbers.
  apply (stripLeadingNumber_ends_qmark _ ")"%char); [discriminate|].
  apply (stripLeadingNumber_ends_qmark _ "."%char); [discriminate|exact H].
Qed.

Lemma parseText_ends_qmark question :
  ends_qmark question -> ends_qmark (parseText question).
Proof.
  intros H. unfold parseText.
  apply TrimSpace_ends_qmark, stripLeadingNumbers_ends_qmark.
  apply TrimSpace_ends_qmark in H.
  destruct (HasPrefix (TrimSpace question) (lit "-")) eqn:E; [|exact H].
  apply HasPrefix_true in E as [rest E]. rewrite E in *.
  change (slice_from (lit "-" ++ rest) 1) with rest.
  apply (suffix_ends_qmark (lit "-")); [exact H|].
  intros ->. destruct H as [t Ht]. destruct t as [|? [|? ?]]; discriminate.
Qed.

(** A string of at most two bytes that [Atoi] accepts is made of digits
    and signs. *)
Lemma Atoi_short tmp n :
  (List.length tmp <= 2)%nat -> strconv.Atoi tmp = inl n ->
  forall c, In c tmp ->
    strconv.is_digit c = true \/ c = "-"%char \/ c = "+"%char.
Proof.
  destruct tmp as [|a [|b [|? ?]]]; simpl List.length; try lia; intros _ H c Hc.
  - destruct Hc.
  - destruct Hc as [<-|[]].
    destruct (strconv.is_digit a) eqn:D; [now left|].
    destruct (Ascii.eqb a "-") eqn:E1; [apply Ascii.eqb_eq in E1; auto|].
    destruct (Ascii.eqb a "+") eqn:E2; [apply Ascii.eqb_eq in E2; auto|].
    exfalso. revert H. unfold strconv.Atoi.
    cbn [len List.length Z.of_nat Pos.of_succ_nat Z.ltb Z.compare Pos.compare
         Pos.compare_cont andb strconv.small_digits].
    rewrite E1, E2. cbn [orb andb strconv.small_digits]. rewrite D. discriminate.
  - destruct (strconv.is_digit a) eqn:Da, (Ascii.eqb a "-") eqn:Ea1,
      (Ascii.eqb a "+") eqn:Ea2, (strconv.is_digit b) eqn:Db,
      (Ascii.eqb b "-") eqn:Eb1, (Ascii.eqb b "+") eqn:Eb2;
    destruct Hc as [<-|[<-|[]]];
    try (left; assumption);
    try (right; left; apply Ascii.eqb_eq; assumption);
    try (right; right; apply Ascii.eqb_eq; assumption);
    exfalso; revert H; unfold strconv.Atoi;
    cbn [len List.length Z.of_nat Pos.of_succ_nat Pos.succ Z.ltb Z.compare
         Pos.compare Pos.compare_cont andb];
    rewrite ?Ea1, ?Ea2;
    cbn [orb andb len List.length Z.of_nat Pos.of_succ_nat Z.ltb Z.compare
         Pos.compare Pos.compare_cont strconv.small_digits];
    rewrite ?Da; cbn [strconv.small_digits]; rewrite ?Db; discriminate.
Qed.

(** A byte that is neither a digit, a sign nor part of white space. *)
Definition inert (d : ascii) : Prop :=
  strconv.is_digit d = false /\ d <> "-"%char /\ d <> "+"%char /\ ~ space_byte d.

(** One pass cuts white space and at most one marker: what it drops in
    front holds the punctuation at most once and no other inert byte. *)
Lemma stripLeadingNumber_cut question (c : ascii) :
  exists pre post,
    question = pre ++ stripLeadingNumber question [c] ++ post /\
    (forall d, inert d -> ~ In d post) /\
    (forall d, inert d -> d <> c -> ~ In d pre) /\
    (inert c -> (count_occ ascii_dec pre c <= 1)%nat).
Proof.
  rewrite stripLeadingNumber_marker.
  destruct (marker question [c]) eqn:M.
  - apply marker_range in M as [[Hpos Hle] [n Hn]].
    pose proof (Index_found question [c] Hpos) as F.
    pose proof (Index_first question c Hpos) as N.
    unfold slice in Hn. rewrite Z.sub_0_r in Hn. simpl skipn in Hn.
    unfold slice_from.
    replace (Z.to_nat (Index question [c] + 1))
      with (Z.to_nat (Index question [c]) + List.length [c])%nat by (simpl; lia).
    set (tmp := firstn (Z.to_nat (Index question [c])) question) in *.
    set (rest := skipn _ question) in *.
    assert (Lt : (List.length tmp <= 2)%nat).
    { unfold tmp. rewrite length_firstn. lia. }
    destruct (TrimSpace_cut rest) as [wpre [wpost [E [Bpre Bpost]]]].
    exists (tmp ++ [c] ++ wpre), wpost. split; [|split; [|split]].
    + rewrite <- !app_assoc. rewrite <- E. exact F.
    + intros d [_ [_ [_ Hd]]] Hin. exact (Hd (Bpost d Hin)).
    + intros d [D [M1 [M2 Hd]]] Hdc Hin.
      apply in_app_or in Hin as [Hin|Hin].
      * destruct (Atoi_short tmp n Lt Hn d Hin) as [H|[H|H]]; congruence.
      * apply in_app_or in Hin as [[H|[]]|Hin]; [congruence|].
        exact (Hd (Bpre d Hin)).
    + intros [_ [_ [_ Hc]]]. rewrite !count_occ_app.
      rewrite (proj1 (count_occ_not_In ascii_dec tmp c) N).
      rewrite (proj1 (count_occ_not_In ascii_dec wpre c) (fun H => Hc (Bpre c H))).
      simpl. destruct (ascii_dec c c); [lia | congruence].
  - destruct (TrimSpace_cut question) as [wpre [wpost [E [Bpre Bpost]]]].
    exists wpre, wpost. split; [exact E|]. split; [|split].
    + intros d [_ [_ [_ Hd]]] Hin. exact (Hd (Bpost d Hin)).
    + intros d [_ [_ [_ Hd]]] _ Hin. exact (Hd (Bpre d Hin)).
    + intros [_ [_ [_ Hc]]].
      rewrite (proj1 (count_occ_not_In ascii_dec wpre c) (fun H => Hc (Bpre c H))).
      lia.
Qed.

Lemma inert_period : inert "."%char.
Proof.
  repeat split; try discriminate. apply not_space_byte. reflexivity.
Qed.

Lemma inert_paren : inert ")"%char.
Proof.
  repeat split; try discriminate. apply not_space_byte. reflexivity.
Qed.

Lemma stripLeadingNumbers_cut (s : gostring) :
    exists pre post,
      s = pre ++ stripLeadingNumbers s ++ post /\
      (count_occ ascii_dec pre "."%char <= 1)%nat /\
      (count_occ ascii_dec pre ")"%char <= 1)%nat /\
      ~ In "."%char post /\ ~ In ")"%char post.
Proof.
  unfold stripLeadingNumbers.
  change (lit ".") with ["."%char]. change (lit ")") with [")"%char].
  destruct (stripLeadingNumber_cut s "."%char) as [p1 [q1 [E1 [Q1 [P1 C1]]]]].
  destruct (stripLeadingNumber_cut (stripLeadingNumber s ["."%char]) ")"%char)
    as [p2 [q2 [E2 [Q2 [P2 C2]]]]].
  exists (p1 ++ p2), (q2 ++ q1). split; [|split; [|split; [|split]]].
  - apply eq_trans
      with (p1 ++ (p2 ++ stripLeadingNumber (stripLeadingNumber s ["."%char])
                           [")"%char] ++ q2) ++ q1).
    + rewrite <- E2. exact E1.
    + rewrite <- !app_assoc. reflexivity.
  - rewrite count_occ_app.
    rewrite (proj1 (count_occ_not_In ascii_dec p2 "."%char)
               (P2 _ inert_period ltac:(discriminate))).
    specialize (C1 inert_period). lia.
  - rewrite count_occ_app.
    rewrite (proj1 (count_occ_not_In ascii_dec p1 ")"%char)
               (P1 _ inert_paren ltac:(discriminate))).
    specialize (C2 inert_paren). lia.
  - intros H. apply in_app_or in H as [H|H];
      [exact (Q2 _ inert_period H) | exact (Q1 _ inert_period H)].
  - intros H. apply in_app_or in H as [H|H];
      [exact (Q2 _ inert_paren H) | exact (Q1 _ inert_paren H)].
Qed.


(** The numbered question of the source's comment and test. *)
Definition embedded_parens : gostring :=
  lit "3. What NAS Solutions (enterprise and scale-out) are you familiar with?".

Definition embedded_parens_stripped : gostring :=
  lit "What NAS Solutions (enterprise and scale-out) are you familiar with?".

(** C4, as stated, fails: on the line with two stacked markers the first
    application removes only the first marker and a second application
    removes the next one, so stripping twice differs from stripping
    once. *)
Lemma stripLeadingNumbers_not_idempotent :
  stripLeadingNumbers (lit "1.2.x") = lit "2.x" /\
  stripLeadingNumbers (stripLeadingNumbers (lit "1.2.x")) = lit "x" /\
  stripLeadingNumbers (stripLeadingNumbers (lit "1.2.x"))
    <> stripLeadingNumbers (lit "1.2.x").
Proof. repeat split. vm_compute. discriminate. Qed.

(** C4, amended: the numbered example loses its leading marker and keeps
    its inner parenthesis; stripping a second time changes nothing
    whenever the once-stripped line no longer starts with a marker of
    either kind; and one application removes at most one marker per
    punctuation kind: the text it cuts from the front of a line holds at
    most one period and at most one closing parenthesis, and the text it
    cuts from the end holds neither. *)
Theorem stripLeadingNumbers_stable :
  stripLeadingNumbers embedded_parens = embedded_parens_stripped /\
  (forall s : gostring,
     marker (stripLeadingNumbers s) (lit ".") = false ->
     marker (stripLeadingNumbers s) (lit ")") = false ->
     stripLeadingNumbers (stripLeadingNumbers s) = stripLeadingNumbers s) /\
  (forall s : gostring,
     exists pre post,
       s = pre ++ stripLeadingNumbers s ++ post /\
       (count_occ ascii_dec pre "."%char <= 1)%nat /\
       (count_occ ascii_dec pre ")"%char <= 1)%nat /\
       ~ In "."%char post /\ ~ In ")"%char post).
Proof.
  split; [reflexivity|]. split; [|exact stripLeadingNumbers_cut].
  intros s Hdot Hpar.
  assert (T : trimmed (stripLeadingNumbers s))
    by apply stripLeadingNumber_trimmed.
  unfold stripLeadingNumbers at 1.
  rewrite (stripLeadingNumber_no_marker _ (lit ".") T Hdot).
  apply (stripLeadingNumber_no_marker _ (lit ")") T Hpar).
Qed.

Lemma stripLeadingNumbers_stable_witness :
  marker (stripLeadingNumbers embedded_parens) (lit ".") = false /\
  marker (stripLeadingNumbers embedded_parens) (lit ")") = false /\
  stripLeadingNumbers (stripLeadingNumbers embedded_parens)
    = stripLeadingNumbers embedded_parens.
Proof.
  split; [reflexivity|]. split; [reflexivity|].
  apply (proj1 (proj2 stripLeadingNumbers_stable) embedded_parens); reflexivity.
Defined.

(** C5, as stated, fails: a prefix that parses as a negative integer is
    removed with its punctuation, although the claim has such a line
    only trimmed. *)
Lemma stripLeadingNumber_negative_prefix :
  let question := lit "-5.x" in
  let pos := Index question (lit ".") in
  pos = 2 /\
  strconv.Atoi (slice question 0 pos) = inl (-5) /\
  stripLeadingNumber question (lit ".") = lit "x" /\
  stripLeadingNumber question (lit ".") <> TrimSpace question.
Proof. repeat split. vm_compute. discriminate. Qed.

(** C5, amended: the prefix through the punctuation is removed exactly
    when the first occurrence of the punctuation is at offset 0 to 2 and
    the bytes before it parse as an integer of either sign; every other
    line is only trimmed. *)
Theorem stripLeadingNumber_cases (question : gostring) (punc : ascii) :
  let pos := Index question [punc] in
  (forall n, 0 <= pos <= 2 ->
             strconv.Atoi (slice question 0 pos) = inl n ->
     question = slice question 0 pos ++ punc :: slice_from question (pos + 1) /\
     ~ In punc (slice question 0 pos) /\
     stripLeadingNumber question [punc]
       = TrimSpace (slice_from question (pos + 1))) /\
  (~ (0 <= pos <= 2 /\
      exists n, strconv.Atoi (slice question 0 pos) = inl n) ->
     stripLeadingNumber question [punc] = TrimSpace question).
Proof.
  intros pos. split.
  - intros n Hpos Hn.
    assert (M : marker question [punc] = true)
      by (apply marker_range; split; [exact Hpos | exists n; exact Hn]).
    assert (Hp : 0 <= pos) by lia.
    pose proof (Index_found question [punc] Hp) as F.
    pose proof (Index_first question punc Hp) as N.
    unfold slice, slice_from. rewrite Z.sub_0_r. simpl skipn at 1.
    replace (Z.to_nat (pos + 1)) with (Z.to_nat pos + List.length [punc])%nat
      by (simpl; lia).
    repeat split.
    + exact F.
    + exact N.
    + rewrite stripLeadingNumber_marker, M. unfold slice_from. fold pos.
      replace (Z.to_nat (pos + 1)) with (Z.to_nat pos + List.length [punc])%nat
        by (simpl; lia).
      reflexivity.
  - intros H. rewrite stripLeadingNumber_marker.
    destruct (marker question [punc]) eqn:M; [|reflexivity].
    apply marker_range in M. contradiction.
Qed.

Lemma stripLeadingNumber_cases_witness :
  stripLeadingNumber (lit "12) Why?") (lit ")") = lit "Why?" /\
  stripLeadingNumber (lit "a) Why? ") (lit ")") = lit "a) Why?".
Proof.
  split.
  - exact (proj2 (proj2
      (proj1 (stripLeadingNumber_cases (lit "12) Why?") ")"%char) 12
         ltac:(vm_compute; split; discriminate) eq_refl))).
  - apply (proj2 (stripLeadingNumber_cases (lit "a) Why? ") ")"%char)).
    intros [_ [n Hn]]. vm_compute in Hn. discriminate.
Defined.

End StripFacts.

(** ** Random source and generation settings *)

Module SettingsFacts.

(** The random source keeps its contract: a successful draw lies in
    the half-open range below the bound it was asked for. *)
Definition in_range (rand_Int : nat -> Z -> option Z) : Prop :=
  forall k bound n, 0 < bound -> rand_Int k bound = Some n -> 0 <= n < bound.

(** The world after one more draw. *)
Definition drawn (w : World) : World :=
  {| rand_reads := S (rand_reads w);
     completion_calls := completion_calls w;
     clock_reads := clock_reads w |}.

Lemma wrap64_small (n : Z) : minInt64 <= n <= maxInt64 -> wrap64 n = n.
Proof.
  unfold wrap64, minInt64, maxInt64.
  change (2 ^ 63) with 9223372036854775808.
  change (2 ^ 64) with 18446744073709551616.
  intros H. rewrite Z.mod_small; lia.
Qed.

Lemma random_in_range rand_Int (min max : Z) (w : World) :
  in_range rand_Int ->
  minInt64 <= min -> min < max -> max <= maxInt64 -> max - min <= maxInt64 ->
  exists r, random rand_Int min max w = Some (r, drawn w) /\ min <= r < max.
Proof.
  intros R Hmin Hlt Hmax Hspan. unfold random, bind, rand_read.
  assert (B : wrap64 (max - min) = max - min).
  { apply wrap64_small. unfold minInt64, maxInt64 in *.
    change (2 ^ 63) with 9223372036854775808 in *. lia. }
  rewrite B. destruct (max - min <=? 0) eqn:E; [apply Z.leb_le in E; lia|].
  fold (drawn w). destruct (rand_Int (rand_reads w) (max - min)) as [n|] eqn:D.
  - apply R in D; [|lia]. exists (n + min).
    assert (W : wrap64 n = n).
    { apply wrap64_small. unfold minInt64, maxInt64 in *.
      change (2 ^ 63) with 9223372036854775808 in *. lia. }
    rewrite W. rewrite wrap64_small.
    + split; [reflexivity | lia].
    + unfold minInt64, maxInt64 in *.
      change (2 ^ 63) with 9223372036854775808 in *. lia.
  - exists min. split; [reflexivity | lia].
Qed.

(** [float32(r) / float32(100)]. *)
Definition hundredth (r : Z) : float32 := f32.div (f32.of_int r) (f32.of_int 100).

Lemma float32Rand_in_range rand_Int (min max : float32) (w : World) :
  in_range rand_Int ->
  let lo := f32.to_int64 (f32.mul min (f32.of_int 100)) in
  let hi := f32.to_int64 (f32.mul max (f32.of_int 100)) in
  minInt64 <= lo -> lo < hi -> hi <= maxInt64 -> hi - lo <= maxInt64 ->
  exists r, float32Rand rand_Int min max w = Some (hundredth r, drawn w)
            /\ lo <= r < hi.
Proof.
  intros R lo hi H1 H2 H3 H4. unfold float32Rand, bind.
  destruct (random_in_range rand_Int lo hi w R H1 H2 H3 H4) as [r [E Hr]].
  fold lo hi. rewrite E. exists r. split; [reflexivity | exact Hr].
Qed.

(** The value is 1.0. *)
Definition is_one (v : float32) : bool := SFeqb v f32.one.

(** The value lies in the band from 0.3 to 0.9, upper end excluded;
    the comparison is on the exact value of the float. *)
Definition in_band (v : float32) : bool :=
  match f32.to_Q v with
  | Some q => Qle_bool (3 # 10) q && negb (Qle_bool (9 # 10) q)
  | None => false
  end.

Definition pinned (p : option float32) : Prop :=
  exists v, p = Some v /\ is_one v = true.

Definition randomized (p : option float32) : Prop :=
  exists v, p = Some v /\ in_band v = true.

Lemma hundredth_band (r : Z) :
  30 <= r < 90 -> in_band (hundredth r) = true /\ is_one (hundredth r) = false.
Proof.
  intros H.
  assert (A : forallb (fun r => in_band (hundredth r) && negb (is_one (hundredth r)))
                (map Z.of_nat (seq 30 60)) = true) by (vm_compute; reflexivity).
  rewrite forallb_forall in A.
  specialize (A r). rewrite andb_true_iff, negb_true_iff in A. apply A.
  apply in_map_iff. exists (Z.to_nat r). split; [lia|].
  apply in_seq. lia.
Qed.

Lemma pinned_not_randomized p : pinned p -> randomized p -> False.
Proof.
  intros [v [E1 O]] [v' [E2 B]]. rewrite E1 in E2. injection E2 as <-.
  unfold is_one, SFeqb in O. unfold in_band in B.
  change f32.one with (S754_finite false 8388608 (-23)) in O.
  destruct v as [sg|sg| |sg m e];
    cbv beta iota delta [SFcompare] in O; try discriminate.
  destruct sg; [discriminate|].
  destruct (Z.compare e (-23)) eqn:Ee; try discriminate.
  apply Z.compare_eq in Ee. subst e.
  destruct (Pos.compare_cont Eq m 8388608) eqn:Em; try discriminate.
  apply Pcompare_Eq_eq in Em. subst m. vm_compute in B. discriminate.
Qed.

(** How a run of the constructor goes: the first draw [p] is for
    top-p, the second draw [d] selects the control, and only when [d]
    exceeds 7 a third draw [t] is made for the temperature. *)
Lemma NewInterviewSettingsRand_run rand_Int user w :
  in_range rand_Int ->
  exists p d s w',
    30 <= p < 90 /\
    random rand_Int 1 10 (drawn w) = Some (d, drawn (drawn w)) /\
    1 <= d < 10 /\
    NewInterviewSettingsRand rand_Int user w = Some (s, w') /\
    User s = user /\
    if d >? 7
    then exists t, 30 <= t < 90 /\
           Temperature s = Some (hundredth t) /\ TopP s = Some f32.one
    else Temperature s = Some f32.one /\ TopP s = Some (hundredth p).
Proof.
  intros R.
  assert (F : forall w0, exists r,
             float32Rand rand_Int (f32.const 3 10) (f32.const 9 10) w0
               = Some (hundredth r, drawn w0) /\ 30 <= r < 90).
  { intros w0.
    apply (float32Rand_in_range rand_Int (f32.const 3 10) (f32.const 9 10) w0 R);
      vm_compute; congruence. }
  destruct (F w) as [p [Ep Hp]].
  destruct (random_in_range rand_Int 1 10 (drawn w) R) as [d [Ed Hd]];
    [vm_compute; congruence | lia | vm_compute; congruence
    | vm_compute; congruence |].
  assert (T : forall w0 (tt : option float32 * option float32), exists s w',
             (fp <- float32Rand rand_Int (f32.const 2 10) (f32.const 85 100) ;;
              mt <- intPtrRand rand_Int 175 275 ;;
              pp <- float32Rand rand_Int (f32.const 1 10) (f32.const 8 10) ;;
              ret {| Engine := InterviewDefaultEngine;
                     FrequencyPenalty := fp;
                     MaxTokens := mt;
                     PresencePenalty := pp;
                     Temperature := fst tt;
                     TopP := snd tt;
                     User := user |}) w0 = Some (s, w')
             /\ Temperature s = fst tt /\ TopP s = snd tt /\ User s = user).
  { intros w0 tt. unfold bind at 1.
    destruct (float32Rand_in_range rand_Int (f32.const 2 10) (f32.const 85 100) w0 R)
      as [r1 [E1 _]]; [vm_compute; congruence | vm_compute; reflexivity
                      | vm_compute; congruence | vm_compute; congruence |].
    rewrite E1. unfold bind at 1, intPtrRand, bind at 1.
    destruct (random_in_range rand_Int 175 275 (drawn w0) R) as [r2 [E2 _]];
      [vm_compute; congruence | lia | vm_compute; congruence
      | vm_compute; congruence |].
    rewrite E2. unfold ret at 1. unfold bind at 1.
    destruct (float32Rand_in_range rand_Int (f32.const 1 10) (f32.const 8 10)
                (drawn (drawn w0)) R)
      as [r3 [E3 _]]; [vm_compute; congruence | vm_compute; reflexivity
                      | vm_compute; congruence | vm_compute; congruence |].
    rewrite E3. unfold ret. eexists; eexists. split; [reflexivity|].
    simpl. repeat split. }
  exists p, d.
  unfold NewInterviewSettingsRand, float32PtrRand.
  unfold bind at 1, bind at 1. rewrite Ep. unfold ret at 1.
  unfold bind at 1. rewrite Ed.
  destruct (d >? 7) eqn:Sel.
  - unfold bind at 1, bind at 1, bind at 1.
    destruct (F (drawn (drawn w))) as [t [Et Ht]]. rewrite Et.
    unfold ret at 1, ret at 1.
    destruct (T (drawn (drawn (drawn w))) (Some (hundredth t), Some f32.one))
      as [s [w' [Es [ET [EP EU]]]]].
    exists s, w'. repeat split; try lia; try assumption.
    exists t. repeat split; try lia; assumption.
  - unfold bind at 1. unfold ret at 1.
    destruct (T (drawn (drawn w)) (Some f32.one, Some (hundredth p)))
      as [s [w' [Es [ET [EP EU]]]]].
    exists s, w'. repeat split; try lia; assumption.
Qed.

Lemma pinned_one : pinned (Some f32.one).
Proof. exists f32.one. split; reflexivity. Qed.

Lemma randomized_hundredth r : 30 <= r < 90 -> randomized (Some (hundredth r)).
Proof.
  intros H. exists (hundredth r). split; [reflexivity|].
  apply hundredth_band, H.
Qed.

(** C2: under a random source that keeps its ranges the diversity
    constructor returns, and of temperature and top-p exactly one is
    1.0 while the other lies in the band from 0.3 to 0.9; they are never
    both 1.0 and never both in the band. *)
Theorem NewInterviewSettingsRand_one_control rand_Int user w :
  in_range rand_Int ->
  exists s w',
    NewInterviewSettingsRand rand_Int user w = Some (s, w') /\
    ((pinned (Temperature s) /\ randomized (TopP s)) \/
     (pinned (TopP s) /\ randomized (Temperature s))) /\
    ~ (pinned (Temperature s) /\ pinned (TopP s)) /\
    ~ (randomized (Temperature s) /\ randomized (TopP s)).
Proof.
  intros R.
  destruct (NewInterviewSettingsRand_run rand_Int user w R)
    as [p [d [s [w' [Hp [_ [_ [Es [_ Hsel]]]]]]]]].
  exists s, w'. split; [exact Es|].
  destruct (d >? 7).
  - destruct Hsel as [t [Ht [-> ->]]].
    pose proof pinned_one as P1. pose proof (randomized_hundredth t Ht) as Rt.
    split; [right; split; assumption|]. split.
    + intros [P _]. exact (pinned_not_randomized _ P Rt).
    + intros [_ Q]. exact (pinned_not_randomized _ P1 Q).
  - destruct Hsel as [-> ->].
    pose proof pinned_one as P1. pose proof (randomized_hundredth p Hp) as Rp.
    split; [left; split; assumption|]. split.
    + intros [_ P]. exact (pinned_not_randomized _ P Rp).
    + intros [Q _]. exact (pinned_not_randomized _ P1 Q).
Qed.

(** A source that always draws the smallest value. *)
Definition lowest_draws : nat -> Z -> option Z :=
  fun _ bound => if 0 <? bound then Some 0 else None.

Lemma lowest_draws_in_range : in_range lowest_draws.
Proof.
  intros k bound n Hb. unfold lowest_draws.
  destruct (0 <? bound); [|discriminate]. intros H. injection H as <-. lia.
Defined.

Lemma NewInterviewSettingsRand_one_control_witness :
  exists s w',
    NewInterviewSettingsRand lowest_draws (lit "user-1") world0 = Some (s, w') /\
    ((pinned (Temperature s) /\ randomized (TopP s)) \/
     (pinned (TopP s) /\ randomized (Temperature s))) /\
    ~ (pinned (Temperature s) /\ pinned (TopP s)) /\
    ~ (randomized (Temperature s) /\ randomized (TopP s)).
Proof.
  apply (NewInterviewSettingsRand_one_control lowest_draws (lit "user-1") world0).
  intros k bound n Hb. unfold lowest_draws.
  destruct (0 <? bound); [|discriminate]. intros H. injection H as <-. lia.
Defined.

(** *** The selection of the sampling control *)

(** The run takes the temperature branch: top-p is 1.0 and the
    temperature is the randomized one. *)
Definition temperature_branch (s : InterviewRequestSettings) : Prop :=
  pinned (TopP s) /\ randomized (Temperature s).

Definition temperature_branchb (s : InterviewRequestSettings) : bool :=
  match TopP s, Temperature s with
  | Some p, Some t => is_one p && in_band t
  | _, _ => false
  end.

(** The values the selection draw [random(1, 10)] can take, all equally
    likely under a uniform source. *)
Definition selection_draws : list Z := map Z.of_nat (seq 1 9).

(** A source whose second read, the selection, makes [random(1, 10)]
    return [d]. *)
Definition selecting (d : Z) : nat -> Z -> option Z :=
  fun k _ => if Nat.eqb k 1 then Some (d - 1) else Some 0.

(** The selection draws for which the constructor, run on that draw,
    takes the temperature branch. *)
Definition temperature_draws : list Z :=
  filter (fun d => match NewInterviewSettingsRand (selecting d) [] world0 with
                   | Some (s, _) => temperature_branchb s
                   | None => false
                   end)
         selection_draws.

(** C3, as stated, fails: of the nine values of the selection draw two,
    not three, take the temperature branch, and two in nine is not 30%. *)
Lemma temperature_draws_not_three :
  List.length selection_draws = 9%nat /\
  List.length temperature_draws <> 3%nat /\
  ~ (Z.of_nat (List.length temperature_draws) # 9 == 30 # 100)%Q.
Proof. repeat split; vm_compute; discriminate. Qed.

(** C3, amended: the selection is one draw from 1 to 9, the temperature
    branch is taken exactly when the draw exceeds 7, and the draws that
    take it are 8 and 9, two of the nine equally likely values. *)
Theorem NewInterviewSettingsRand_selection :
  selection_draws = [1; 2; 3; 4; 5; 6; 7; 8; 9] /\
  temperature_draws = [8; 9] /\
  forall rand_Int user w,
    in_range rand_Int ->
    exists d s w',
      random rand_Int 1 10 (drawn w) = Some (d, drawn (drawn w)) /\
      In d selection_draws /\
      NewInterviewSettingsRand rand_Int user w = Some (s, w') /\
      (temperature_branch s <-> 7 < d).
Proof.
  split; [reflexivity|]. split; [vm_compute; reflexivity|].
  intros rand_Int user w R.
  destruct (NewInterviewSettingsRand_run rand_Int user w R)
    as [p [d [s [w' [Hp [Ed [Hd [Es [_ Hsel]]]]]]]]].
  exists d, s, w'. split; [exact Ed|]. split.
  { unfold selection_draws. apply in_map_iff. exists (Z.to_nat d).
    split; [lia | apply in_seq; lia]. }
  split; [exact Es|].
  destruct (d >? 7) eqn:Sel.
  - apply Z.gtb_lt in Sel. destruct Hsel as [t [Ht [ET EP]]].
    split; [lia|]. intros _. unfold temperature_branch. rewrite ET, EP.
    split; [apply pinned_one | apply randomized_hundredth, Ht].
  - assert (d <= 7) by (destruct (Z.gtb_spec d 7); [discriminate | lia]).
    destruct Hsel as [ET EP]. split; [|lia].
    intros [P _]. exfalso. rewrite EP in P.
    exact (pinned_not_randomized _ P (randomized_hundredth p Hp)).
Qed.

Lemma NewInterviewSettingsRand_selection_witness :
  exists d s w',
    random lowest_draws 1 10 (drawn world0) = Some (d, drawn (drawn world0)) /\
    In d selection_draws /\
    NewInterviewSettingsRand lowest_draws (lit "user-1") world0 = Some (s, w') /\
    (temperature_branch s <-> 7 < d).
Proof.
  apply (proj2 (proj2 NewInterviewSettingsRand_selection)
           lowest_draws (lit "user-1") world0).
  intros k bound n Hb. unfold lowest_draws.
  destruct (0 <? bound); [|discriminate]. intros H. injection H as <-. lia.
Defined.

(** *** The mapping to a completion request *)

(** C8: when max tokens, temperature and top-p are present, the request
    carries every settings field unchanged and the prompt verbatim, with
    echo off, one completion and streaming off. *)
Theorem mapInterviewSettings_copies
    (settings : InterviewRequestSettings) (prompt : gostring)
    (maxTokens : Z) (temperature topP : float32) (w : World) :
  MaxTokens settings = Some maxTokens ->
  Temperature settings = Some temperature ->
  TopP settings = Some topP ->
  exists request,
    mapInterviewSettings settings prompt w = Some (request, w) /\
    cr_Model request = Engine settings /\
    cr_FrequencyPenalty request = FrequencyPenalty settings /\
    cr_MaxTokens request = maxTokens /\
    cr_PresencePenalty request = PresencePenalty settings /\
    cr_Temperature request = temperature /\
    cr_TopP request = topP /\
    cr_User request = User settings /\
    cr_Prompt request = prompt /\
    cr_Echo request = false /\ cr_N request = 1 /\ cr_Stream request = false.
Proof.
  intros HM HT HP. unfold mapInterviewSettings, bind, deref, ret.
  rewrite HM, HT, HP. eexists. split; [reflexivity|].
  simpl. repeat split.
Qed.

Lemma mapInterviewSettings_copies_witness :
  exists request,
    mapInterviewSettings (NewInterviewSettings (lit "user-1")) (lit "a prompt") world0
      = Some (request, world0) /\
    cr_Model request = InterviewDefaultEngine /\
    cr_FrequencyPenalty request = f32.const 75 100 /\
    cr_MaxTokens request = 175 /\
    cr_PresencePenalty request = f32.const 7 10 /\
    cr_Temperature request = f32.one /\
    cr_TopP request = f32.const 85 100 /\
    cr_User request = lit "user-1" /\
    cr_Prompt request = lit "a prompt" /\
    cr_Echo request = false /\ cr_N request = 1 /\ cr_Stream request = false.
Proof.
  apply (mapInterviewSettings_copies (NewInterviewSettings (lit "user-1"))
           (lit "a prompt") 175 f32.one (f32.const 85 100) world0);
    reflexivity.
Defined.

End SettingsFacts.

(** ** Response parsing *)

Module ParserFacts.
Import StringFacts StripFacts SettingsFacts.

Lemma len_zero (s : gostring) : (len s =? 0) = true <-> s = [].
Proof.
  unfold len. rewrite Z.eqb_eq. destruct s; simpl; split; intros H;
    try reflexivity; try discriminate; lia.
Qed.

(** *** Shuffle *)

Lemma store_at_length questions i q :
  List.length (store_at questions i q) = List.length questions.
Proof.
  revert i; induction questions as [|q0 l IH]; intros [|i]; simpl; auto.
Qed.

Lemma store_at_In questions i q x :
  In x (store_at questions i q) -> x = q \/ In x questions.
Proof.
  revert i; induction questions as [|q0 l IH]; intros [|i]; simpl; auto.
  - intros [->|H]; auto.
  - intros [->|H]; auto. destruct (IH _ H); auto.
Qed.

Lemma index_at_Some questions n i q w w' :
  index_at questions n i w = Some (q, w') ->
  w' = w /\ 0 <= i < Z.of_nat n /\ In q questions.
Proof.
  unfold index_at.
  destruct ((0 <=? i) && (i <? Z.of_nat n)) eqn:E; [|discriminate].
  apply andb_true_iff in E as [E1 E2]. apply Z.leb_le in E1. apply Z.ltb_lt in E2.
  destruct (nth_error questions (Z.to_nat i)) as [x|] eqn:N; [|discriminate].
  unfold deref, ret. intros H. inversion H; subst.
  repeat split; try lia. eapply nth_error_In; eassumption.
Qed.

Lemma index_at_total questions n i w :
  (n <= List.length questions)%nat -> 0 <= i < Z.of_nat n ->
  exists q, index_at questions n i w = Some (q, w).
Proof.
  intros Hn Hi. unfold index_at.
  replace ((0 <=? i) && (i <? Z.of_nat n)) with true
    by (symmetry; apply andb_true_iff; split; [apply Z.leb_le | apply Z.ltb_lt]; lia).
  destruct (nth_error questions (Z.to_nat i)) as [x|] eqn:N.
  - exists x. reflexivity.
  - apply nth_error_None in N. lia.
Qed.

(** Whatever the source draws, a shuffle that returns has moved
    questions around without inventing any. *)
Lemma Shuffle_loop_sound rand_Int n : forall questions w result w',
  Shuffle_loop rand_Int n questions w = Some (result, w') ->
  List.length result = List.length questions /\
  forall x, In x result -> In x questions.
Proof.
  induction n as [|n IH]; intros questions w result w'; cbn [Shuffle_loop].
  - unfold ret. intros H. inversion H; subst. auto.
  - unfold bind at 1.
    destruct (random rand_Int 0 (Z.of_nat (S n)) w) as [[r w1]|]; [|discriminate].
    unfold bind at 1.
    destruct (index_at questions (S n) r w1) as [[picked w2]|] eqn:E1; [|discriminate].
    unfold bind at 1.
    destruct (index_at questions (S n) (Z.of_nat n) w2) as [[last w3]|] eqn:E2;
      [|discriminate].
    apply index_at_Some in E1 as [_ [_ I1]]. apply index_at_Some in E2 as [_ [_ I2]].
    intros H. apply IH in H as [L S]. rewrite !store_at_length in L.
    split; [exact L|]. intros x Hx. specialize (S x Hx).
    apply store_at_In in S as [->|S]; [exact I2|].
    apply store_at_In in S as [->|S]; [exact I1 | exact S].
Qed.

(** With a source that keeps its ranges the shuffle returns. *)
Lemma Shuffle_loop_total rand_Int n : forall questions w,
  in_range rand_Int ->
  (n <= List.length questions)%nat -> Z.of_nat n <= maxInt64 ->
  exists result w', Shuffle_loop rand_Int n questions w = Some (result, w').
Proof.
  induction n as [|n IH]; intros questions w R Hn Hmax; cbn [Shuffle_loop].
  - exists questions, w. reflexivity.
  - unfold bind at 1.
    destruct (random_in_range rand_Int 0 (Z.of_nat (S n)) w R)
      as [r [Er Hr]]; try lia; [vm_compute; congruence|].
    rewrite Er. unfold bind at 1.
    destruct (index_at_total questions (S n) r (drawn w) Hn Hr) as [picked E1].
    rewrite E1. unfold bind at 1.
    destruct (index_at_total questions (S n) (Z.of_nat n) (drawn w) Hn) as [last E2];
      [lia|].
    rewrite E2. apply IH; [exact R | rewrite !store_at_length; lia | lia].
Qed.

(** *** The line filter *)

Lemma retained_true part :
  retained part = true -> ends_qmark part /\ part <> [].
Proof.
  unfold retained. rewrite andb_true_iff. intros [_ H].
  apply HasSuffix_true in H as [t ->]. split.
  - exists t. reflexivity.
  - destruct t; discriminate.
Qed.

(** What the parser promises of a question: text that is not empty and
    ends with a question mark. *)
Definition well_formed (q : InterviewQuestion) : Prop :=
  Question q <> [] /\ ends_qmark (Question q).

Lemma ends_qmark_nonempty s : ends_qmark s -> s <> [].
Proof. intros [t ->]. destruct t; discriminate. Qed.

Lemma parse_parts_well_formed parts : forall data,
  Forall well_formed data -> Forall well_formed (parse_parts parts data).
Proof.
  induction parts as [|part parts IH]; intros data H; simpl; [exact H|].
  destruct (retained part) eqn:E; [|apply IH, H].
  apply IH. apply Forall_app. split; [exact H|].
  constructor; [|constructor]. apply retained_true in E as [E _].
  apply parseText_ends_qmark in E. split; [apply ends_qmark_nonempty|]; exact E.
Qed.

Lemma parse_parts_app ps qs data :
  parse_parts (ps ++ qs) data = parse_parts qs (parse_parts ps data).
Proof.
  revert data; induction ps as [|part ps IH]; intros data; simpl; [reflexivity|].
  destruct (retained part); apply IH.
Qed.

Lemma parse_parts_none parts data :
  (forall part, In part parts -> retained part = false) ->
  parse_parts parts data = data.
Proof.
  induction parts as [|part parts IH]; intros H; simpl; [reflexivity|].
  rewrite (H part (or_introl eq_refl)). apply IH.
  intros q Hq. apply H. now right.
Qed.

(** Every retained piece has at least one byte, so there are no more
    questions than bytes. *)
Lemma parse_parts_length parts : forall data,
  (List.length (parse_parts parts data)
     <= List.length data + List.length (List.concat parts))%nat.
Proof.
  induction parts as [|part parts IH]; intros data; simpl; [lia|].
  rewrite length_app. destruct (retained part) eqn:E.
  - apply retained_true in E as [_ E].
    specialize (IH (data ++ [{| Index := Z.of_nat (List.length data) + 1;
                                Question := parseText part |}])).
    rewrite length_app in IH. simpl in IH.
    destruct part; [congruence|]. simpl. lia.
  - specialize (IH data). lia.
Qed.

Lemma Split_concat_length s sep :
  (List.length (List.concat (strings.Split s sep)) <= List.length s)%nat.
Proof.
  induction s as [|c s IH]; simpl; [lia|].
  destruct (Ascii.eqb c sep); simpl; [lia|].
  destruct (strings.Split s sep) as [|piece pieces]; simpl in *; lia.
Qed.

(** The parser without its early exit: for an empty text the split has
    one empty piece, which the filter drops. *)
Lemma parseInterviewChoice_data rand_Int ch shuffle :
  parseInterviewChoice rand_Int ch shuffle =
  let data := parse_parts (strings.Split (Text ch) LF) [] in
  if Z.of_nat (List.length data) =? 0 then ret []
  else if shuffle then Shuffle rand_Int data else ret data.
Proof.
  unfold parseInterviewChoice. destruct (len (Text ch) =? 0) eqn:E; [|reflexivity].
  apply len_zero in E. rewrite E. reflexivity.
Qed.

(** C9: whatever the source draws, every question the parser returns
    has non-empty text ending with a question mark; and the parser does
    return when the source keeps its ranges and the text has a length
    that a Go string can have. *)
Theorem parseInterviewChoice_well_formed rand_Int ch shuffle w :
  (forall data w',
      parseInterviewChoice rand_Int ch shuffle w = Some (data, w') ->
      Forall well_formed data) /\
  (in_range rand_Int -> len (Text ch) <= maxInt64 ->
   exists data w', parseInterviewChoice rand_Int ch shuffle w = Some (data, w')).
Proof.
  rewrite parseInterviewChoice_data. cbv zeta.
  set (data := parse_parts (strings.Split (Text ch) LF) []).
  assert (WF : Forall well_formed data)
    by (apply parse_parts_well_formed; constructor).
  split.
  - intros result w'.
    destruct (Z.of_nat (List.length data) =? 0).
    { unfold ret. intros H. inversion H; subst. constructor. }
    destruct shuffle.
    + unfold Shuffle. intros H. apply Shuffle_loop_sound in H as [_ H].
      rewrite Forall_forall in *. intros x Hx. apply WF, H, Hx.
    + unfold ret. intros H. inversion H; subst. exact WF.
  - intros R Hlen.
    destruct (Z.of_nat (List.length data) =? 0); [eexists; eexists; reflexivity|].
    destruct shuffle; [|eexists; eexists; reflexivity].
    apply Shuffle_loop_total; [exact R | lia |].
    pose proof (parse_parts_length (strings.Split (Text ch) LF) []) as L1.
    pose proof (Split_concat_length (Text ch) LF) as L2.
    fold data in L1. simpl in L1. unfold len in Hlen. lia.
Qed.

Definition numbered_lines : CompletionChoice :=
  {| Text := lit "1. What?" ++ [LF] ++ lit "- 2) Why me?" ++ [LF]
               ++ lit "truncated" ++ [LF] ++ lit "3.How?";
     FinishReason := lit "stop" |}.

Lemma parseInterviewChoice_well_formed_witness :
  exists w',
    parseInterviewChoice lowest_draws numbered_lines true world0
      = Some ([ {| Index := 2; Question := lit "Why me?" |};
                {| Index := 3; Question := lit "How?" |};
                {| Index := 1; Question := lit "What?" |} ], w') /\
    Forall well_formed
      [ {| Index := 2; Question := lit "Why me?" |};
        {| Index := 3; Question := lit "How?" |};
        {| Index := 1; Question := lit "What?" |} ].
Proof.
  destruct (proj2 (parseInterviewChoice_well_formed
                     lowest_draws numbered_lines true world0)
              lowest_draws_in_range ltac:(vm_compute; discriminate))
    as [data [w' E]].
  exists w'.
  assert (D : data = [ {| Index := 2; Question := lit "Why me?" |};
                       {| Index := 3; Question := lit "How?" |};
                       {| Index := 1; Question := lit "What?" |} ]).
  { vm_compute in E. injection E as E _. symmetry. exact E. }
  subst data. split; [exact E|].
  exact (proj1 (parseInterviewChoice_well_formed
                  lowest_draws numbered_lines true world0) _ _ E).
Defined.

(** *** CRLF line ends *)

(** A text of lines that each end with CR LF, followed by a rest. *)
Definition crlf_text (lines : list gostring) (rest : gostring) : gostring :=
  List.concat (map (fun l => l ++ [CR; LF]) lines) ++ rest.

Lemma Split_line (l rest : gostring) :
  ~ In LF l -> strings.Split (l ++ LF :: rest) LF = l :: strings.Split rest LF.
Proof.
  induction l as [|c l IH]; intros H; simpl.
  - reflexivity.
  - destruct (Ascii.eqb c LF) eqn:E.
    + apply Ascii.eqb_eq in E. exfalso. apply H. now left.
    + rewrite IH; [reflexivity|]. intros I. apply H. now right.
Qed.

Lemma Split_crlf_text lines rest :
  (forall l, In l lines -> ~ In LF l) ->
  strings.Split (crlf_text lines rest) LF
    = map (fun l => l ++ [CR]) lines ++ strings.Split rest LF.
Proof.
  unfold crlf_text. induction lines as [|l lines IH]; intros H; simpl.
  - reflexivity.
  - rewrite <- !app_assoc. simpl.
    change (l ++ CR :: LF :: List.concat (map (fun l0 => l0 ++ [CR; LF]) lines) ++ rest)
      with (l ++ [CR] ++ LF :: List.concat (map (fun l0 => l0 ++ [CR; LF]) lines) ++ rest).
    rewrite app_assoc, Split_line.
    + rewrite IH; [reflexivity|]. intros l' Hl'. apply H. now right.
    + intros I. apply in_app_or in I as [I|[I|[]]].
      * exact (H l (or_introl eq_refl) I).
      * discriminate.
Qed.

Lemma retained_CR l : retained (l ++ [CR]) = false.
Proof.
  unfold retained, strings.HasSuffix. rewrite rev_app_distr. simpl.
  apply andb_false_r.
Qed.

(** C10: in a text whose lines end with CR LF no such line passes the
    question-mark test, which sees the piece with its trailing CR, so
    the parsed output is that of the unterminated rest alone. *)
Theorem parseInterviewChoice_crlf rand_Int lines rest finish shuffle w :
  (forall l, In l lines -> ~ In LF l) ->
  strings.Split (crlf_text lines rest) LF
    = map (fun l => l ++ [CR]) lines ++ strings.Split rest LF /\
  (forall l, In l lines -> retained (l ++ [CR]) = false) /\
  parseInterviewChoice rand_Int
    {| Text := crlf_text lines rest; FinishReason := finish |} shuffle w
  = parseInterviewChoice rand_Int
      {| Text := rest; FinishReason := finish |} shuffle w.
Proof.
  intros H. split; [apply Split_crlf_text, H|].
  split; [intros l _; apply retained_CR|].
  rewrite !parseInterviewChoice_data. cbn [Text].
  rewrite Split_crlf_text by exact H.
  rewrite parse_parts_app.
  rewrite (parse_parts_none (map (fun l => l ++ [CR]) lines) []); [reflexivity|].
  intros part Hp. apply in_map_iff in Hp as [l [<- _]]. apply retained_CR.
Qed.

Lemma parseInterviewChoice_crlf_witness :
  parseInterviewChoice lowest_draws
    {| Text := crlf_text [lit "1. What?"; lit "2. Why?"] (lit "3. How?");
       FinishReason := [] |} false world0
  = Some ([ {| Index := 1; Question := lit "How?" |} ], world0).
Proof.
  destruct (parseInterviewChoice_crlf lowest_draws
              [lit "1. What?"; lit "2. Why?"] (lit "3. How?") [] false world0)
    as [_ [_ E]].
  - intros l [<-|[<-|[]]]; vm_compute; intros I;
      repeat (destruct I as [I|I]; [discriminate|]); exact I.
  - rewrite E. reflexivity.
Defined.

End ParserFacts.

(** ** The orchestrator *)

Module OrchestratorFacts.
Import StringFacts SettingsFacts ParserFacts.

(** The effective cap in the specification's words: the smaller of the
    requested cap and the ceiling of 50 when a cap is supplied, the
    default of 5 when there are no options or no cap. *)
Definition effective_cap (options : option InterviewOptions) : Z :=
  match options with
  | Some o => match Cap o with
              | Some requested => Z.min requested 50
              | None => 5
              end
  | None => 5
  end.

(** The options the orchestrator works with. *)
Definition resolved (options : option InterviewOptions) : InterviewOptions :=
  match options with
  | None => NewInterviewOptions InterviewDefaultCap
  | Some o => o
  end.

Lemma GetCap_effective options : GetCap (resolved options) = effective_cap options.
Proof.
  unfold GetCap, effective_cap, resolved, InterviewMaxCap, InterviewDefaultCap.
  destruct options as [[[c|] sh]|]; simpl; try reflexivity.
  destruct (c >? 50) eqn:E.
  - apply Z.gtb_lt in E. lia.
  - destruct (Z.gtb_spec c 50); [discriminate | lia].
Qed.

(** *** Accumulation under the cap *)

Lemma take_items_length quesCap items : forall questions,
  Z.of_nat (List.length questions) <= quesCap ->
  Z.of_nat (List.length (take_items quesCap items questions)) <= quesCap.
Proof.
  induction items as [|qu items IH]; intros questions H; simpl; [exact H|].
  destruct (Z.of_nat (List.length questions) =? quesCap) eqn:E; [exact H|].
  apply Z.eqb_neq in E. apply IH. rewrite length_app. simpl. lia.
Qed.

Lemma take_choices_length rand_Int quesCap shuffle choices :
  forall questions w result w',
    take_choices rand_Int quesCap shuffle choices questions w = Some (result, w') ->
    Z.of_nat (List.length questions) <= quesCap ->
    Z.of_nat (List.length result) <= quesCap.
Proof.
  induction choices as [|ch choices IH]; intros questions w result w'; simpl.
  - unfold ret. intros H. inversion H; subst. auto.
  - unfold bind at 1.
    destruct (parseInterviewChoice rand_Int ch shuffle w) as [[items w1]|];
      [|discriminate].
    intros H L. eapply IH; [exact H|]. apply take_items_length, L.
Qed.

(** A response in which no line ends with a question mark. *)
Definition question_lines (text : gostring) : list gostring :=
  filter (fun part => strings.HasSuffix part (lit "?")) (strings.Split text LF).

Lemma filter_nil {A} (f : A -> bool) l :
  filter f l = [] -> forall x, In x l -> f x = false.
Proof.
  induction l as [|a l IH]; simpl; intros H x; [intros []|].
  destruct (f a) eqn:E; [discriminate|]. intros [<-|I]; auto.
Qed.

Lemma parseInterviewChoice_no_questions rand_Int ch shuffle w :
  Text ch = [] \/ question_lines (Text ch) = [] ->
  parseInterviewChoice rand_Int ch shuffle w = Some ([], w).
Proof.
  intros [E|E].
  - unfold parseInterviewChoice. rewrite E. reflexivity.
  - rewrite parseInterviewChoice_data. cbv zeta.
    rewrite parse_parts_none; [reflexivity|].
    intros part Hp. unfold retained.
    rewrite (filter_nil _ _ E part Hp). apply andb_false_r.
Qed.

Lemma take_choices_no_questions rand_Int quesCap shuffle choices :
  forall questions w,
    (forall ch, In ch choices -> Text ch = [] \/ question_lines (Text ch) = []) ->
    take_choices rand_Int quesCap shuffle choices questions w = Some (questions, w).
Proof.
  induction choices as [|ch choices IH]; intros questions w H; simpl; [reflexivity|].
  unfold bind.
  rewrite parseInterviewChoice_no_questions by (apply H; now left).
  simpl. apply IH. intros c Hc. apply H. now right.
Qed.

(** *** Runs of [InterviewQuestions] *)

(** The world after one more reading of the clock. *)
Definition clocked (w : World) : World :=
  {| rand_reads := rand_reads w;
     completion_calls := completion_calls w;
     clock_reads := S (clock_reads w) |}.

Definition both_empty (input : InterviewInput) : Prop :=
  trimStr (JobTitle input) = [] /\ trimStr (JobDescription input) = [].

Lemma both_empty_test input :
  (len (trimStr (JobTitle input)) =? 0) && (len (trimStr (JobDescription input)) =? 0)
    = true <-> both_empty input.
Proof. unfold both_empty. rewrite andb_true_iff, !len_zero. reflexivity. Qed.

Lemma mapInterviewSettings_world settings prompt w request w1 :
  mapInterviewSettings settings prompt w = Some (request, w1) ->
  forall w2, mapInterviewSettings settings prompt w2 = Some (request, w2).
Proof.
  unfold mapInterviewSettings, bind, deref, ret, panic.
  destruct (MaxTokens settings); [|discriminate].
  destruct (Temperature settings); [|discriminate].
  destruct (TopP settings); [|discriminate].
  intros H w2. inversion H; subst. reflexivity.
Qed.

(** A successful run parsed the choices of some response under the
    effective cap. *)
Lemma InterviewQuestions_ok rand_Int CreateCompletion time_Now
    input settings options w r s' w' :
  InterviewQuestions rand_Int CreateCompletion time_Now input settings options w
    = Some ((inl r, s'), w') ->
  exists resp w1 w2,
    take_choices rand_Int (effective_cap options) (Shuffle_flag (resolved options))
      (Choices resp) [] w1 = Some (Questions r, w2).
Proof.
  unfold InterviewQuestions. unfold bind at 1, now at 1.
  destruct ((len (trimStr (JobTitle input)) =? 0)
            && (len (trimStr (JobDescription input)) =? 0)).
  { unfold ret. intros H. inversion H. }
  destruct settings as [settings|]; [|unfold ret; intros H; inversion H].
  fold (resolved options). rewrite GetCap_effective.
  unfold bind at 1.
  destruct (mapInterviewSettings _ _ _) as [[request w1]|]; [|discriminate].
  unfold bind at 1, call_completion at 1.
  destruct (CreateCompletion request) as [resp|err];
    [|unfold ret; intros H; inversion H].
  unfold bind at 1.
  destruct (take_choices _ _ _ _ _ _) as [[questions w2]|] eqn:E; [|discriminate].
  unfold bind, now, ret. intros H. inversion H; subst. simpl.
  eexists; eexists; eexists. exact E.
Qed.

(** *** Sample runs *)

Definition engineer : InterviewInput :=
  {| JobTitle := Some (lit " Senior Engineer "); JobDescription := None |}.

(** A completion service that answers every request with one choice. *)
Definition answer (text : gostring) : CompletionRequest -> CompletionResponse + error :=
  fun _ => inl {| Choices := [ {| Text := text; FinishReason := lit "stop" |} ] |}.

Definition milliseconds : nat -> Z := fun k => Z.of_nat k * 1000000.

Definition seven_lines : gostring :=
  lit "1. A?" ++ [LF] ++ lit "2. B?" ++ [LF] ++ lit "3. C?" ++ [LF]
    ++ lit "4. D?" ++ [LF] ++ lit "5. E?" ++ [LF] ++ lit "6. F?" ++ [LF]
    ++ lit "7. G?".

(** C1, as stated, fails: a negative requested cap is its own effective
    cap, the stop test of the loop never matches it, and the parsed
    question is returned, one more than a negative bound allows. *)
Lemma InterviewQuestions_negative_cap :
  let options := Some {| Cap := Some (-1); Shuffle_flag := false |} in
  exists r s' w',
    InterviewQuestions lowest_draws (answer (lit "1. Why?")) milliseconds
      engineer (Some (NewInterviewSettings (lit "user-1"))) options world0
      = Some ((inl r, s'), w') /\
    effective_cap options = -1 /\
    List.length (Questions r) = 1%nat /\
    ~ Z.of_nat (List.length (Questions r)) <= effective_cap options.
Proof.
  intros options.
  destruct (InterviewQuestions lowest_draws (answer (lit "1. Why?")) milliseconds
              engineer (Some (NewInterviewSettings (lit "user-1"))) options world0)
    as [[[[r|e] s'] w']|] eqn:E; vm_compute in E; try discriminate.
  exists r, s', w'. split; [reflexivity|].
  inversion E; subst. split; [reflexivity|]. split; [reflexivity|].
  unfold options. simpl. lia.
Qed.

(** C1, amended: a successful run with a non-negative effective cap
    returns at most that many questions, the effective cap being the
    smaller of the requested cap and 50, or 5 when none is requested. *)
Theorem InterviewQuestions_capped rand_Int CreateCompletion time_Now
    input settings options w r s' w' :
  InterviewQuestions rand_Int CreateCompletion time_Now input settings options w
    = Some ((inl r, s'), w') ->
  0 <= effective_cap options ->
  Z.of_nat (List.length (Questions r)) <= effective_cap options.
Proof.
  intros H Hcap. apply InterviewQuestions_ok in H as [resp [w1 [w2 H]]].
  eapply take_choices_length; [exact H | exact Hcap].
Qed.

Lemma InterviewQuestions_capped_witness :
  let options := Some (NewInterviewOptions 5) in
  exists r s' w',
    InterviewQuestions lowest_draws (answer seven_lines) milliseconds
      engineer (Some (NewInterviewSettings (lit "user-1"))) options world0
      = Some ((inl r, s'), w') /\
    0 <= effective_cap options /\
    map Index (Questions r) = [1; 2; 3; 4; 5] /\
    Z.of_nat (List.length (Questions r)) <= effective_cap options.
Proof.
  intros options.
  destruct (InterviewQuestions lowest_draws (answer seven_lines) milliseconds
              engineer (Some (NewInterviewSettings (lit "user-1"))) options world0)
    as [[[[r|e] s'] w']|] eqn:E.
  - exists r, s', w'. split; [reflexivity|].
    split; [vm_compute; discriminate|]. split.
    + vm_compute in E. inversion E; subst. reflexivity.
    + apply (InterviewQuestions_capped _ _ _ _ _ _ _ _ _ _ E).
      vm_compute; discriminate.
  - vm_compute in E. discriminate.
  - vm_compute in E. discriminate.
Defined.

(** C6: when the input is usable, the settings are present and map to
    a request, and the completion call answers that request with text
    that is empty or has no line ending in a question mark, the run
    succeeds with no questions and [HasQuestions] is false. *)
Theorem InterviewQuestions_no_questions rand_Int CreateCompletion time_Now
    input settings options w request resp :
  ~ both_empty input ->
  mapInterviewSettings (fill_engine settings)
    (getInterviewPrompt (trimStr (JobTitle input)) (trimStr (JobDescription input))) w
    = Some (request, w) ->
  CreateCompletion request = inl resp ->
  (forall ch, In ch (Choices resp) ->
              Text ch = [] \/ question_lines (Text ch) = []) ->
  exists r w',
    InterviewQuestions rand_Int CreateCompletion time_Now
      input (Some settings) options w
      = Some ((inl r, Some (fill_engine settings)), w') /\
    Questions r = [] /\
    HasQuestions (Some r) = false /\
    completion_calls w' = completion_calls w ++ [request].
Proof.
  intros Hin Hmap Hcall Hno.
  unfold InterviewQuestions. unfold bind at 1, now at 1.
  destruct ((len (trimStr (JobTitle input)) =? 0)
            && (len (trimStr (JobDescription input)) =? 0)) eqn:T.
  { apply both_empty_test in T. contradiction. }
  unfold bind at 1.
  rewrite (mapInterviewSettings_world _ _ _ _ _ Hmap).
  unfold bind at 1, call_completion at 1. rewrite Hcall.
  unfold bind at 1. rewrite take_choices_no_questions by exact Hno.
  unfold bind, now, ret. eexists; eexists. split; [reflexivity|].
  simpl. repeat split.
Qed.

Lemma InterviewQuestions_no_questions_witness :
  exists r w',
    InterviewQuestions lowest_draws (answer (lit "I cannot help with that."))
      milliseconds engineer (Some (NewInterviewSettings (lit "user-1"))) None world0
      = Some ((inl r, Some (fill_engine (NewInterviewSettings (lit "user-1")))), w') /\
    Questions r = [] /\
    HasQuestions (Some r) = false /\
    List.length (completion_calls w') = 1%nat.
Proof.
  destruct (InterviewQuestions_no_questions lowest_draws
              (answer (lit "I cannot help with that.")) milliseconds
              engineer (NewInterviewSettings (lit "user-1")) None world0
              {| cr_Model := InterviewDefaultEngine;
                 cr_Prompt := lit "Create a list of questions for my interview with a Senior Engineer";
                 cr_MaxTokens := 175;
                 cr_Temperature := f32.one;
                 cr_TopP := f32.const 85 100;
                 cr_N := 1;
                 cr_Stream := false;
                 cr_Echo := false;
                 cr_PresencePenalty := f32.const 7 10;
                 cr_FrequencyPenalty := f32.const 75 100;
                 cr_User := lit "user-1" |}
              {| Choices := [ {| Text := lit "I cannot help with that.";
                                 FinishReason := lit "stop" |} ] |})
    as [r [w' [E [Q [HQ C]]]]].
  - intros [T _]. vm_compute in T. discriminate.
  - reflexivity.
  - reflexivity.
  - intros ch [<-|[]]. right. reflexivity.
  - exists r, w'. repeat split; try assumption. rewrite C. reflexivity.
Defined.

(** C7: an input whose title and description both trim to empty fails
    with the invalid-input error, and a usable input with nil settings
    fails with the missing-settings error; in both cases no request is
    sent to the completion service. *)
Theorem InterviewQuestions_validation rand_Int CreateCompletion time_Now
    input settings options w :
  (both_empty input ->
   exists w',
     InterviewQuestions rand_Int CreateCompletion time_Now input settings options w
       = Some ((inr ErrInvalidInput, settings), w') /\
     completion_calls w' = completion_calls w) /\
  (~ both_empty input -> settings = None ->
   exists w',
     InterviewQuestions rand_Int CreateCompletion time_Now input settings options w
       = Some ((inr ErrMissingSettings, None), w') /\
     completion_calls w' = completion_calls w).
Proof.
  split.
  - intros B. apply both_empty_test in B.
    unfold InterviewQuestions. unfold bind at 1, now at 1. rewrite B.
    eexists. split; reflexivity.
  - intros B ->.
    unfold InterviewQuestions. unfold bind at 1, now at 1.
    destruct ((len (trimStr (JobTitle input)) =? 0)
              && (len (trimStr (JobDescription input)) =? 0)) eqn:T.
    { apply both_empty_test in T. contradiction. }
    eexists. split; reflexivity.
Qed.

Definition blank : InterviewInput :=
  {| JobTitle := Some (lit "   "); JobDescription := None |}.

Lemma InterviewQuestions_validation_witness :
  (exists w',
     InterviewQuestions lowest_draws (answer (lit "1. Why?")) milliseconds
       blank (Some (NewInterviewSettings (lit "user-1"))) None world0
       = Some ((inr ErrInvalidInput, Some (NewInterviewSettings (lit "user-1"))), w') /\
     completion_calls w' = []) /\
  (exists w',
     InterviewQuestions lowest_draws (answer (lit "1. Why?")) milliseconds
       engineer None None world0
       = Some ((inr ErrMissingSettings, None), w') /\
     completion_calls w' = []).
Proof.
  split.
  - apply (proj1 (InterviewQuestions_validation lowest_draws
                    (answer (lit "1. Why?")) milliseconds blank
                    (Some (NewInterviewSettings (lit "user-1"))) None world0)).
    split; reflexivity.
  - apply (proj2 (InterviewQuestions_validation lowest_draws
                    (answer (lit "1. Why?")) milliseconds engineer None None world0)).
    + intros [T _]. vm_compute in T. discriminate.
    + reflexivity.
Defined.

End OrchestratorFacts.

(** * Further properties of the code *)

(** ** Random helpers and the two settings profiles (utils.go, interview.go) *)

Module ProfileFacts.
Import SettingsFacts.

(** X1: [random] panics when the range is empty, that is when [max] is
    not above [min] (the difference not wrapping around). *)
Theorem random_empty_range rand_Int (min max : Z) (w : World) :
  max <= min -> minInt64 <= max - min ->
  random rand_Int min max w = None.
Proof.
  intros H L. unfold random, bind, rand_read.
  rewrite wrap64_small.
  - destruct (max - min <=? 0) eqn:E; [reflexivity|].
    apply Z.leb_gt in E. lia.
  - unfold minInt64, maxInt64 in *.
    change (2 ^ 63) with 9223372036854775808 in *. lia.
Qed.

Lemma random_empty_range_witness :
  random lowest_draws 5 5 world0 = None /\ random lowest_draws 10 1 world0 = None.
Proof.
  split; apply random_empty_range; vm_compute; discriminate.
Defined.

(** X2: over a non-empty range and a source that keeps its contract
    [intPtrRand] returns a non-nil pointer to a value of the half-open
    range after exactly one draw, and the value is [min] when reading
    the source fails. *)
Theorem intPtrRand_range rand_Int (min max : Z) (w : World) :
  in_range rand_Int ->
  minInt64 <= min -> min < max -> max <= maxInt64 -> max - min <= maxInt64 ->
  exists r,
    intPtrRand rand_Int min max w = Some (Some r, drawn w) /\
    min <= r < max /\
    (rand_Int (rand_reads w) (max - min) = None -> r = min).
Proof.
  intros R Hmin Hlt Hmax Hspan. unfold intPtrRand, bind at 1.
  destruct (random_in_range rand_Int min max w R Hmin Hlt Hmax Hspan) as [r [E Hr]].
  rewrite E. exists r. split; [reflexivity|]. split; [exact Hr|].
  intros F. revert E. unfold random, bind, rand_read.
  rewrite wrap64_small.
  - destruct (max - min <=? 0); [discriminate|]. rewrite F. unfold ret.
    intros E. inversion E. reflexivity.
  - unfold minInt64, maxInt64 in *.
    change (2 ^ 63) with 9223372036854775808 in *. lia.
Qed.

(** A source whose every read fails. *)
Definition broken_source : nat -> Z -> option Z := fun _ _ => None.

Lemma intPtrRand_range_witness :
  exists r,
    intPtrRand broken_source 175 275 world0 = Some (Some r, drawn world0) /\
    175 <= r < 275 /\
    (broken_source (rand_reads world0) (275 - 175) = None -> r = 175).
Proof.
  apply (intPtrRand_range broken_source 175 275 world0).
  - intros k bound n _ H. discriminate H.
  - vm_compute; discriminate.
  - lia.
  - vm_compute; discriminate.
  - vm_compute; discriminate.
Defined.

(** The exact value of a float lies in the half-open interval. *)
Definition within (lo hi : Q) (v : float32) : bool :=
  match f32.to_Q v with
  | Some q => Qle_bool lo q && negb (Qle_bool hi q)
  | None => false
  end.

(** The exact value of a float is the given rational. *)
Definition exactly (x : Q) (v : float32) : bool :=
  match f32.to_Q v with
  | Some q => Qeq_bool q x
  | None => false
  end.

Lemma hundredth_within (lo hi : Z) (a b : Q) (r : Z) :
  forallb (fun r => within a b (hundredth r))
    (map (fun k => lo + Z.of_nat k) (seq 0 (Z.to_nat (hi - lo)))) = true ->
  lo <= r < hi -> within a b (hundredth r) = true.
Proof.
  intros A H. rewrite forallb_forall in A. apply A.
  apply in_map_iff. exists (Z.to_nat (r - lo)). split; [lia|].
  apply in_seq. lia.
Qed.

(** The fields of the diversity profile and what building it costs:
    five draws when top-p carries the control, six when the temperature
    is drawn as well. *)
Lemma NewInterviewSettingsRand_fields rand_Int user w :
  in_range rand_Int ->
  exists s w' f m q,
    NewInterviewSettingsRand rand_Int user w = Some (s, w') /\
    Engine s = InterviewDefaultEngine /\ User s = user /\
    FrequencyPenalty s = hundredth f /\ 20 <= f < 85 /\
    within (2 # 10) (85 # 100) (FrequencyPenalty s) = true /\
    MaxTokens s = Some m /\ 175 <= m < 275 /\
    PresencePenalty s = hundredth q /\ 10 <= q < 80 /\
    within (1 # 10) (8 # 10) (PresencePenalty s) = true /\
    ((pinned (Temperature s) /\ randomized (TopP s) /\
      rand_reads w' = rand_reads w + 5)%nat \/
     (pinned (TopP s) /\ randomized (Temperature s) /\
      rand_reads w' = rand_reads w + 6)%nat) /\
    completion_calls w' = completion_calls w.
Proof.
  intros R.
  assert (T : forall w0 (tt : option float32 * option float32), exists s f m q,
             (fp <- float32Rand rand_Int (f32.const 2 10) (f32.const 85 100) ;;
              mt <- intPtrRand rand_Int 175 275 ;;
              pp <- float32Rand rand_Int (f32.const 1 10) (f32.const 8 10) ;;
              ret {| Engine := InterviewDefaultEngine;
                     FrequencyPenalty := fp;
                     MaxTokens := mt;
                     PresencePenalty := pp;
                     Temperature := fst tt;
                     TopP := snd tt;
                     User := user |}) w0 = Some (s, drawn (drawn (drawn w0)))
             /\ Engine s = InterviewDefaultEngine /\ User s = user
             /\ FrequencyPenalty s = hundredth f /\ 20 <= f < 85
             /\ MaxTokens s = Some m /\ 175 <= m < 275
             /\ PresencePenalty s = hundredth q /\ 10 <= q < 80
             /\ Temperature s = fst tt /\ TopP s = snd tt).
  { intros w0 tt. unfold bind at 1.
    destruct (float32Rand_in_range rand_Int (f32.const 2 10) (f32.const 85 100) w0 R)
      as [r1 [E1 H1]]; [vm_compute; congruence | vm_compute; reflexivity
                       | vm_compute; congruence | vm_compute; congruence |].
    rewrite E1. unfold bind at 1, intPtrRand, bind at 1.
    destruct (random_in_range rand_Int 175 275 (drawn w0) R) as [r2 [E2 H2]];
      [vm_compute; congruence | lia | vm_compute; congruence
      | vm_compute; congruence |].
    rewrite E2. unfold ret at 1. unfold bind at 1.
    destruct (float32Rand_in_range rand_Int (f32.const 1 10) (f32.const 8 10)
                (drawn (drawn w0)) R)
      as [r3 [E3 H3]]; [vm_compute; congruence | vm_compute; reflexivity
                       | vm_compute; congruence | vm_compute; congruence |].
    rewrite E3. unfold ret. eexists; exists r1, r2, r3. split; [reflexivity|].
    simpl. repeat split; try reflexivity;
      solve [ apply H1 | apply H2 | apply H3 ]. }
  assert (F : forall w0, exists r,
             float32Rand rand_Int (f32.const 3 10) (f32.const 9 10) w0
               = Some (hundredth r, drawn w0) /\ 30 <= r < 90).
  { intros w0.
    apply (float32Rand_in_range rand_Int (f32.const 3 10) (f32.const 9 10) w0 R);
      vm_compute; congruence. }
  assert (W1 : forall f, 20 <= f < 85 ->
             within (2 # 10) (85 # 100) (hundredth f) = true)
    by (intros f; apply (hundredth_within 20 85); vm_compute; reflexivity).
  assert (W2 : forall q, 10 <= q < 80 ->
             within (1 # 10) (8 # 10) (hundredth q) = true)
    by (intros q; apply (hundredth_within 10 80); vm_compute; reflexivity).
  destruct (F w) as [p [Ep Hp]].
  destruct (random_in_range rand_Int 1 10 (drawn w) R) as [d [Ed _]];
    [vm_compute; congruence | lia | vm_compute; congruence
    | vm_compute; congruence |].
  unfold NewInterviewSettingsRand, float32PtrRand.
  unfold bind at 1, bind at 1. rewrite Ep. unfold ret at 1.
  unfold bind at 1. rewrite Ed.
  destruct (d >? 7).
  - unfold bind at 1, bind at 1, bind at 1.
    destruct (F (drawn (drawn w))) as [t [Et Ht]]. rewrite Et.
    unfold ret at 1, ret at 1.
    destruct (T (drawn (drawn (drawn w))) (Some (hundredth t), Some f32.one))
      as [s [f [m [q [Es [HE [HU [HF [Hf [HM [Hm [HP [Hq [HT HO]]]]]]]]]]]]]].
    exists s, (drawn (drawn (drawn (drawn (drawn (drawn w)))))), f, m, q.
    rewrite HF, HP, HT, HO.
    repeat split; try assumption; try lia; try (apply W1; lia); try (apply W2; lia).
    right. split; [apply pinned_one|]. split; [apply randomized_hundredth, Ht|].
    simpl. lia.
  - unfold bind at 1. unfold ret at 1.
    destruct (T (drawn (drawn w)) (Some f32.one, Some (hundredth p)))
      as [s [f [m [q [Es [HE [HU [HF [Hf [HM [Hm [HP [Hq [HT HO]]]]]]]]]]]]]].
    exists s, (drawn (drawn (drawn (drawn (drawn w))))), f, m, q.
    rewrite HF, HP, HT, HO.
    repeat split; try assumption; try lia; try (apply W1; lia); try (apply W2; lia).
    left. split; [apply pinned_one|]. split; [apply randomized_hundredth, Hp|].
    simpl. lia.
Qed.

(** X3: the diversity profile always has the default engine and the
    caller's user, a frequency penalty [f/100] in [0.2, 0.85), a presence
    penalty [q/100] in [0.1, 0.8) and max tokens in [175, 275); it takes
    exactly five draws when the temperature stays at 1.0 and top-p is the
    randomized control, exactly six when the temperature is drawn too
    and top-p is 1.0; it sends nothing to the completion service. *)
Theorem NewInterviewSettingsRand_profile rand_Int user w :
  in_range rand_Int ->
  exists s w' f m q,
    NewInterviewSettingsRand rand_Int user w = Some (s, w') /\
    Engine s = InterviewDefaultEngine /\ User s = user /\
    FrequencyPenalty s = hundredth f /\ 20 <= f < 85 /\
    within (2 # 10) (85 # 100) (FrequencyPenalty s) = true /\
    MaxTokens s = Some m /\ 175 <= m < 275 /\
    PresencePenalty s = hundredth q /\ 10 <= q < 80 /\
    within (1 # 10) (8 # 10) (PresencePenalty s) = true /\
    ((pinned (Temperature s) /\ randomized (TopP s) /\
      rand_reads w' = rand_reads w + 5)%nat \/
     (pinned (TopP s) /\ randomized (Temperature s) /\
      rand_reads w' = rand_reads w + 6)%nat) /\
    completion_calls w' = completion_calls w.
Proof. exact (NewInterviewSettingsRand_fields rand_Int user w). Qed.

Lemma NewInterviewSettingsRand_profile_witness :
  exists s w' f m q,
    NewInterviewSettingsRand lowest_draws (lit "user-1") world0 = Some (s, w') /\
    Engine s = InterviewDefaultEngine /\ User s = lit "user-1" /\
    FrequencyPenalty s = hundredth f /\ 20 <= f < 85 /\
    within (2 # 10) (85 # 100) (FrequencyPenalty s) = true /\
    MaxTokens s = Some m /\ 175 <= m < 275 /\
    PresencePenalty s = hundredth q /\ 10 <= q < 80 /\
    within (1 # 10) (8 # 10) (PresencePenalty s) = true /\
    ((pinned (Temperature s) /\ randomized (TopP s) /\
      rand_reads w' = rand_reads world0 + 5)%nat \/
     (pinned (TopP s) /\ randomized (Temperature s) /\
      rand_reads w' = rand_reads world0 + 6)%nat) /\
    completion_calls w' = completion_calls world0.
Proof.
  apply (NewInterviewSettingsRand_profile lowest_draws (lit "user-1") world0).
  intros k bound n Hb. unfold lowest_draws.
  destruct (0 <? bound); [|discriminate]. intros H. injection H as <-. lia.
Defined.

(** X4: settings of the diversity profile always map to a completion
    request: no pointer is nil, the engine needs no default-fill, and the
    request carries the default model, the caller's user, max tokens in
    [175, 275) and one sampling control at 1.0 with the other in its
    band. *)
Theorem NewInterviewSettingsRand_maps rand_Int user prompt w w1 :
  in_range rand_Int ->
  exists s w' request,
    NewInterviewSettingsRand rand_Int user w = Some (s, w') /\
    fill_engine s = s /\
    mapInterviewSettings s prompt w1 = Some (request, w1) /\
    cr_Model request = InterviewDefaultEngine /\
    cr_User request = user /\
    cr_Prompt request = prompt /\
    175 <= cr_MaxTokens request < 275 /\
    ((is_one (cr_Temperature request) = true /\ in_band (cr_TopP request) = true) \/
     (is_one (cr_TopP request) = true /\ in_band (cr_Temperature request) = true)).
Proof.
  intros R.
  destruct (NewInterviewSettingsRand_run rand_Int user w R)
    as [p [d [s [w' [Hp [_ [_ [Es [_ Hsel]]]]]]]]].
  destruct (NewInterviewSettingsRand_fields rand_Int user w R)
    as [s2 [w2 [f [m [q [Es2 [HE [HU [_ [_ [_ [HM [Hm _]]]]]]]]]]]]].
  rewrite Es in Es2. inversion Es2; subst s2 w2. clear Es2.
  assert (HT : exists t tp, Temperature s = Some t /\ TopP s = Some tp /\
            ((is_one t = true /\ in_band tp = true) \/
             (is_one tp = true /\ in_band t = true))).
  { destruct (d >? 7).
    - destruct Hsel as [t [Ht [ET EP]]].
      exists (hundredth t), f32.one. repeat split; try assumption.
      right. split; [reflexivity | apply hundredth_band, Ht].
    - destruct Hsel as [ET EP].
      exists f32.one, (hundredth p). repeat split; try assumption.
      left. split; [reflexivity | apply hundredth_band, Hp]. }
  destruct HT as [t [tp [ET [EP Hone]]]].
  exists s, w'. eexists. split; [exact Es|]. split.
  { unfold fill_engine. rewrite HE. reflexivity. }
  unfold mapInterviewSettings, bind, deref, ret. rewrite HM, ET, EP.
  split; [reflexivity|]. simpl. repeat split; try assumption; lia.
Qed.

Lemma NewInterviewSettingsRand_maps_witness :
  exists s w' request,
    NewInterviewSettingsRand lowest_draws (lit "user-1") world0 = Some (s, w') /\
    fill_engine s = s /\
    mapInterviewSettings s (lit "a prompt") world0 = Some (request, world0) /\
    cr_Model request = InterviewDefaultEngine /\
    cr_User request = lit "user-1" /\
    cr_Prompt request = lit "a prompt" /\
    175 <= cr_MaxTokens request < 275 /\
    ((is_one (cr_Temperature request) = true /\ in_band (cr_TopP request) = true) \/
     (is_one (cr_TopP request) = true /\ in_band (cr_Temperature request) = true)).
Proof.
  apply (NewInterviewSettingsRand_maps lowest_draws (lit "user-1") (lit "a prompt")
           world0 world0).
  intros k bound n Hb. unfold lowest_draws.
  destruct (0 <? bound); [|discriminate]. intros H. injection H as <-. lia.
Defined.

(** X5: the stable profile needs no random source and, for every user,
    maps to a request without default-fill: max tokens 175, temperature
    exactly 1.0, top-p in the band, a frequency penalty of exactly 0.75
    and a presence penalty within a float32 rounding of 0.7 (less than
    one part in ten million away). *)
Theorem NewInterviewSettings_maps (user prompt : gostring) (w : World) :
  exists request,
    fill_engine (NewInterviewSettings user) = NewInterviewSettings user /\
    mapInterviewSettings (NewInterviewSettings user) prompt w = Some (request, w) /\
    cr_Model request = InterviewDefaultEngine /\
    cr_User request = user /\ cr_Prompt request = prompt /\
    cr_MaxTokens request = 175 /\
    is_one (cr_Temperature request) = true /\
    in_band (cr_TopP request) = true /\
    exactly (3 # 4) (cr_FrequencyPenalty request) = true /\
    within (6999999 # 10000000) (7000001 # 10000000)
      (cr_PresencePenalty request) = true.
Proof.
  eexists. split; [reflexivity|]. split; [reflexivity|].
  simpl. repeat split; vm_compute; reflexivity.
Qed.

(** X6: [GetCap] never exceeds the ceiling of 50, is the default 5 when
    no cap is set, is the requested cap clamped from above only, so that a
    negative cap stays negative, and capping an already capped value
    changes nothing. *)
Theorem GetCap_bounds (o : InterviewOptions) :
  GetCap o <= InterviewMaxCap /\
  (Cap o = None -> GetCap o = InterviewDefaultCap) /\
  (forall c, Cap o = Some c -> GetCap o = Z.min c InterviewMaxCap) /\
  (forall c, Cap o = Some c -> c < 0 -> GetCap o = c) /\
  GetCap (NewInterviewOptions (GetCap o)) = GetCap o.
Proof.
  unfold GetCap, NewInterviewOptions, InterviewMaxCap, InterviewDefaultCap.
  destruct o as [[c|] sh]; simpl.
  - destruct (c >? 50) eqn:E.
    + apply Z.gtb_lt in E. repeat split; try lia; try discriminate.
      * intros c' H. inversion H; subst. lia.
      * intros c' H. inversion H; subst. lia.
    + assert (c <= 50) by (destruct (Z.gtb_spec c 50); [discriminate | lia]).
      rewrite E. repeat split; try lia; try discriminate.
      * intros c' H'. inversion H'; subst. lia.
      * intros c' H'. inversion H'; subst. lia.
  - repeat split; try lia; try discriminate.
Qed.

Lemma GetCap_bounds_witness :
  GetCap {| Cap := Some 70; Shuffle_flag := true |} = 50 /\
  GetCap {| Cap := Some (-3); Shuffle_flag := false |} = -3 /\
  GetCap {| Cap := None; Shuffle_flag := false |} = 5.
Proof.
  split; [|split].
  - rewrite (proj1 (proj2 (proj2 (GetCap_bounds
               {| Cap := Some 70; Shuffle_flag := true |}))) 70 eq_refl).
    reflexivity.
  - apply (proj1 (proj2 (proj2 (proj2 (GetCap_bounds
               {| Cap := Some (-3); Shuffle_flag := false |})))) (-3) eq_refl).
    lia.
  - apply (proj1 (proj2 (GetCap_bounds {| Cap := None; Shuffle_flag := false |}))).
    reflexivity.
Defined.

End ProfileFacts.

(** ** Prompt building and input validation *)

Module PromptFacts.
Import StringFacts SettingsFacts ParserFacts OrchestratorFacts.

Lemma existsb_eqb_false (c : ascii) (l : gostring) :
  existsb (Ascii.eqb c) l = false -> ~ In c l.
Proof.
  intros E I. rewrite <- not_true_iff_false in E. apply E.
  apply existsb_exists. exists c. split; [exact I | apply Ascii.eqb_refl].
Qed.

Lemma replaceNewLines_no_LF_fuel (n : nat) : forall s,
  (List.length s <= n)%nat -> ~ In LF (replaceNewLines s).
Proof.
  induction n as [|n IH]; intros s Hn.
  - destruct s; [intros [] | simpl in Hn; lia].
  - destruct s as [|c rest]; [intros []|]. simpl in Hn.
    cbn [replaceNewLines]. destruct (Ascii.eqb c LF) eqn:E.
    + intros [H|H]; [discriminate H|]. apply (IH rest); [lia | exact H].
    + destruct rest as [|c' rest'].
      * intros [H|[]]. subst c. rewrite Ascii.eqb_refl in E. discriminate.
      * destruct (Ascii.eqb c CR && Ascii.eqb c' LF).
        -- intros [H|H]; [discriminate H|].
           apply (IH rest'); [simpl in Hn; lia | exact H].
        -- intros [H|H].
           ++ subst c. rewrite Ascii.eqb_refl in E. discriminate.
           ++ apply (IH (c' :: rest')); [lia | exact H].
Qed.

Lemma remove_skip_In old : forall s skip x,
  In x (strings.remove_skip old skip s) -> In x s.
Proof.
  induction s as [|c s IH]; intros skip x; simpl; [auto|].
  destruct skip as [|k].
  - destruct (strings.HasPrefix (c :: s) old).
    + intros H. right. exact (IH _ _ H).
    + intros [H|H]; [now left | right; exact (IH _ _ H)].
  - intros H. right. exact (IH _ _ H).
Qed.

Lemma RemoveAll_In s old x : In x (strings.RemoveAll s old) -> In x s.
Proof.
  unfold strings.RemoveAll. destruct old; [auto | apply remove_skip_In].
Qed.

(** The formatter leaves no line feed. *)
Lemma formatInterviewInput_LF_free (input : gostring) :
  ~ In LF (formatInterviewInput input).
Proof.
  unfold formatInterviewInput. intros H. apply RemoveAll_In in H.
  exact (replaceNewLines_no_LF_fuel (List.length input) input (le_n _) H).
Qed.


Lemma replaceNewLines_plain_fuel (n : nat) : forall s,
  (List.length s <= n)%nat -> ~ In LF s -> replaceNewLines s = s.
Proof.
  induction n as [|n IH]; intros s Hn H.
  - destruct s; [reflexivity | simpl in Hn; lia].
  - destruct s as [|c rest]; [reflexivity|]. simpl in Hn.
    cbn [replaceNewLines]. destruct (Ascii.eqb c LF) eqn:E.
    + apply Ascii.eqb_eq in E. exfalso. apply H. now left.
    + destruct rest as [|c' rest']; [reflexivity|].
      destruct (Ascii.eqb c' LF) eqn:E'.
      * apply Ascii.eqb_eq in E'. exfalso. apply H. right. now left.
      * rewrite andb_false_r. f_equal. apply IH; [lia|].
        intros I. apply H. now right.
Qed.

Lemma remove_skip_plain old0 old : forall s,
  ~ In old0 s -> strings.remove_skip (old0 :: old) O s = s.
Proof.
  induction s as [|c s IH]; intros H; [reflexivity|].
  cbn [strings.remove_skip].
  assert (E : strings.HasPrefix (c :: s) (old0 :: old) = false).
  { simpl. destruct (Ascii.eqb c old0) eqn:E; [|reflexivity].
    apply Ascii.eqb_eq in E. exfalso. apply H. now left. }
  rewrite E. f_equal. apply IH. intros I. apply H. now right.
Qed.

(** X8: text with no line feed and no byte 0xE2, the lead byte of the
    bullet glyph, in particular any single-line ASCII text, passes
    through the formatter unchanged. *)
Theorem formatInterviewInput_plain (input : gostring) :
  ~ In LF input -> ~ In (ascii_of_nat 226) input ->
  formatInterviewInput input = input.
Proof.
  intros HL HB. unfold formatInterviewInput.
  rewrite (replaceNewLines_plain_fuel (List.length input) input (le_n _) HL).
  unfold strings.RemoveAll, bullet. apply remove_skip_plain, HB.
Qed.

Lemma formatInterviewInput_plain_witness :
  formatInterviewInput (lit "Senior Engineer") = lit "Senior Engineer".
Proof.
  apply formatInterviewInput_plain; apply existsb_eqb_false; reflexivity.
Defined.

(** X9: the prompt is empty exactly when title and description are both
    empty; otherwise it is the fixed lead-in followed by formatted input,
    and it never contains a line feed. *)
Theorem getInterviewPrompt_single_line (jobTitle jobDesc : gostring) :
  (getInterviewPrompt jobTitle jobDesc = [] <-> jobTitle = [] /\ jobDesc = []) /\
  (jobTitle <> [] \/ jobDesc <> [] ->
   strings.HasPrefix (getInterviewPrompt jobTitle jobDesc)
     (lit "Create a list of questions for my interview with a ") = true) /\
  ~ In LF (getInterviewPrompt jobTitle jobDesc).
Proof.
  unfold getInterviewPrompt.
  destruct jobTitle as [|t title]; destruct jobDesc as [|d desc];
    cbn [len List.length Z.of_nat Z.gtb Z.compare andb].
  - repeat split; auto. intros [H|H]; congruence.
  - replace (len (d :: desc) >? 0) with true by (unfold len; simpl; reflexivity).
    repeat split; try discriminate.
    + intros [_ H]; discriminate.
    + intros I. apply in_app_or in I as [I|I].
      * revert I. apply existsb_eqb_false. reflexivity.
      * exact (formatInterviewInput_LF_free _ I).
  - replace (len (t :: title) >? 0) with true by (unfold len; simpl; reflexivity).
    repeat split; try discriminate.
    + intros [H _]; discriminate.
    + intros I. apply in_app_or in I as [I|I].
      * revert I. apply existsb_eqb_false. reflexivity.
      * exact (formatInterviewInput_LF_free _ I).
  - replace (len (t :: title) >? 0) with true by (unfold len; simpl; reflexivity).
    replace (len (d :: desc) >? 0) with true by (unfold len; simpl; reflexivity).
    repeat split; try discriminate.
    + intros [H _]; discriminate.
    + intros I. apply in_app_or in I as [I|I].
      * revert I. apply existsb_eqb_false. reflexivity.
      * apply in_app_or in I as [I|I];
          [exact (formatInterviewInput_LF_free _ I)|].
        apply in_app_or in I as [I|I].
        -- revert I. apply existsb_eqb_false. reflexivity.
        -- exact (formatInterviewInput_LF_free _ I).
Qed.

Lemma getInterviewPrompt_single_line_witness :
  strings.HasPrefix (getInterviewPrompt (lit "Senior Engineer") [])
    (lit "Create a list of questions for my interview with a ") = true.
Proof.
  apply (proj1 (proj2 (getInterviewPrompt_single_line (lit "Senior Engineer") []))).
  left. discriminate.
Defined.

(** The white-space bytes of ASCII. *)
Definition ascii_space (c : ascii) : Prop :=
  In c (map ascii_of_nat [9; 10; 11; 12; 13; 32]%nat).

Lemma strip_ascii_space (n : nat) : forall s,
  (List.length s <= n)%nat -> Forall ascii_space s ->
  strings.strip strings.space_encodings n s = [].
Proof.
  induction n as [|n IH]; intros s Hn H.
  - destruct s; [reflexivity | simpl in Hn; lia].
  - destruct s as [|c s]; [reflexivity|].
    inversion H as [|? ? Hc Hs]; subst. simpl in Hn.
    assert (L : strings.leading strings.space_encodings (c :: s) = Some [c]).
    { unfold ascii_space in Hc. simpl in Hc.
      destruct Hc as [<-|[<-|[<-|[<-|[<-|[<-|[]]]]]]]; reflexivity. }
    cbn [strings.strip]. rewrite L. apply IH; [simpl; lia | exact Hs].
Qed.

Lemma TrimSpace_ascii_space s : Forall ascii_space s -> strings.TrimSpace s = [].
Proof.
  intros H. unfold strings.TrimSpace, strings.TrimLeft.
  rewrite (strip_ascii_space _ s (le_n _) H). reflexivity.
Qed.

(** X10: an input whose title and description are each nil or made of
    ASCII white space only is rejected with the invalid-input error,
    whatever the settings and options, and nothing is sent to the
    completion service. *)
Theorem InterviewQuestions_blank_input rand_Int CreateCompletion time_Now
    input settings options w :
  (forall t, JobTitle input = Some t -> Forall ascii_space t) ->
  (forall d, JobDescription input = Some d -> Forall ascii_space d) ->
  exists w',
    InterviewQuestions rand_Int CreateCompletion time_Now input settings options w
      = Some ((inr ErrInvalidInput, settings), w') /\
    completion_calls w' = completion_calls w.
Proof.
  intros HT HD.
  assert (B : both_empty input).
  { split; unfold trimStr.
    - destruct (JobTitle input) as [t|]; [|reflexivity].
      apply TrimSpace_ascii_space, HT. reflexivity.
    - destruct (JobDescription input) as [d|]; [|reflexivity].
      apply TrimSpace_ascii_space, HD. reflexivity. }
  apply both_empty_test in B.
  unfold InterviewQuestions. unfold bind at 1, now at 1. rewrite B.
  eexists. split; reflexivity.
Qed.

Lemma InterviewQuestions_blank_input_witness :
  exists w',
    InterviewQuestions lowest_draws (answer (lit "1. Why?")) milliseconds
      {| JobTitle := Some [ascii_of_nat 32; ascii_of_nat 9; ascii_of_nat 10];
         JobDescription := None |}
      (Some (NewInterviewSettings (lit "user-1"))) None world0
      = Some ((inr ErrInvalidInput, Some (NewInterviewSettings (lit "user-1"))), w') /\
    completion_calls w' = completion_calls world0.
Proof.
  apply InterviewQuestions_blank_input.
  - intros t H. simpl in H. inversion H; subst.
    repeat constructor; unfold ascii_space; simpl; tauto.
  - intros d H. simpl in H. discriminate.
Defined.

End PromptFacts.

(** ** More on line cleaning *)

Module CleaningFacts.
Import strings StringFacts StripFacts.

(** [t] occurs in [s] as a contiguous piece. *)
Definition piece_of (t s : gostring) : Prop :=
  exists pre post, s = pre ++ t ++ post.

Lemma piece_of_refl s : piece_of s s.
Proof. exists [], []. simpl. now rewrite app_nil_r. Qed.

Lemma piece_of_trans a b c : piece_of a b -> piece_of b c -> piece_of a c.
Proof.
  intros [p1 [q1 ->]] [p2 [q2 ->]]. exists (p2 ++ p1), (q1 ++ q2).
  now rewrite <- !app_assoc.
Qed.

Lemma piece_of_skipn n s : piece_of (skipn n s) s.
Proof.
  exists (firstn n s), []. rewrite app_nil_r. symmetry. apply firstn_skipn.
Qed.

Lemma piece_of_TrimSpace s : piece_of (TrimSpace s) s.
Proof.
  unfold TrimSpace.
  destruct (TrimLeft_is_suffix s) as [pre Hpre].
  destruct (TrimRight_is_prefix (TrimLeft s)) as [post Hpost].
  exists pre, post. rewrite <- Hpost. exact Hpre.
Qed.

Lemma piece_of_stripLeadingNumber question punc :
  piece_of (stripLeadingNumber question punc) question.
Proof.
  rewrite stripLeadingNumber_marker.
  eapply piece_of_trans; [apply piece_of_TrimSpace|].
  destruct (marker question punc); [apply piece_of_skipn | apply piece_of_refl].
Qed.

(** X11: cleaning a line only cuts at the two ends: the cleaned text
    occurs in the line as one contiguous piece, has no white space left
    at either end, and is not longer than the line. *)
Theorem parseText_piece (question : gostring) :
  piece_of (parseText question) question /\
  trimmed (parseText question) /\
  len (parseText question) <= len question.
Proof.
  assert (P : piece_of (parseText question) question).
  { unfold parseText, stripLeadingNumbers.
    eapply piece_of_trans; [apply piece_of_TrimSpace|].
    eapply piece_of_trans; [apply piece_of_stripLeadingNumber|].
    eapply piece_of_trans; [apply piece_of_stripLeadingNumber|].
    destruct (HasPrefix (TrimSpace question) (lit "-")).
    - eapply piece_of_trans; [apply piece_of_skipn | apply piece_of_TrimSpace].
    - apply piece_of_TrimSpace. }
  split; [exact P|]. split.
  - unfold parseText. apply TrimSpace_trimmed.
  - destruct P as [pre [post E]]. unfold len. rewrite E at 2.
    rewrite !length_app. lia.
Qed.

Lemma Index_beyond (c : ascii) (s : gostring) :
  ~ In c (firstn 3 s) -> ~ (0 <= Index s [c] <= 2).
Proof.
  intros H.
  assert (N : forall d t, ~ In c (d :: t) -> True /\ Ascii.eqb d c = false).
  { intros d t Hd. split; [exact I|].
    destruct (Ascii.eqb d c) eqn:E; [|reflexivity].
    apply Ascii.eqb_eq in E. exfalso. apply Hd. now left. }
  destruct s as [|c0 [|c1 [|c2 rest]]]; simpl in H.
  - simpl. lia.
  - destruct (N c0 [] H) as [_ E0]. simpl. rewrite E0. simpl. lia.
  - destruct (N c0 [c1] H) as [_ E0].
    assert (E1 : Ascii.eqb c1 c = false)
      by (apply (N c1 []); intros [I|[]]; apply H; right; now left).
    simpl. rewrite E0, E1. simpl. lia.
  - destruct (N c0 [c1; c2] H) as [_ E0].
    assert (E1 : Ascii.eqb c1 c = false)
      by (apply (N c1 []); intros [I|[]]; apply H; right; now left).
    assert (E2 : Ascii.eqb c2 c = false)
      by (apply (N c2 []); intros [I|[]]; apply H; right; right; now left).
    pose proof (Index_lower rest [c]) as L.
    cbn [Index HasPrefix]. rewrite E0, E1, E2. cbn [andb].
    destruct (Index rest [c] <? 0) eqn:A.
    + simpl. lia.
    + apply Z.ltb_ge in A.
      destruct (Index rest [c] + 1 <? 0) eqn:B; [apply Z.ltb_lt in B; lia|].
      destruct (Index rest [c] + 1 + 1 <? 0) eqn:C; [apply Z.ltb_lt in C; lia|].
      lia.
Qed.

(** X12: a line without white space at its ends whose first three bytes
    hold neither a period nor a closing parenthesis is returned
    unchanged; in particular numbering of three or more digits is not
    stripped. *)
Theorem stripLeadingNumbers_unmarked (question : gostring) :
  trimmed question ->
  ~ In "."%char (firstn 3 question) -> ~ In ")"%char (firstn 3 question) ->
  stripLeadingNumbers question = question.
Proof.
  intros T Hdot Hpar.
  assert (M : forall c, ~ In c (firstn 3 question) -> marker question [c] = false).
  { intros c Hc. destruct (marker question [c]) eqn:E; [|reflexivity].
    apply marker_range in E as [E _]. exfalso. exact (Index_beyond c question Hc E). }
  unfold stripLeadingNumbers.
  change (lit ".") with ["."%char]. change (lit ")") with [")"%char].
  rewrite (stripLeadingNumber_no_marker question _ T (M _ Hdot)).
  apply (stripLeadingNumber_no_marker question _ T (M _ Hpar)).
Qed.

Lemma stripLeadingNumbers_unmarked_witness :
  stripLeadingNumbers (lit "100. Why?") = lit "100. Why?".
Proof.
  apply stripLeadingNumbers_unmarked.
  - split; reflexivity.
  - apply PromptFacts.existsb_eqb_false. reflexivity.
  - apply PromptFacts.existsb_eqb_false. reflexivity.
Defined.

Lemma Index_at_punct (ds : gostring) (c : ascii) (rest : gostring) :
  ~ In c ds -> Index (ds ++ c :: rest) [c] = Z.of_nat (List.length ds).
Proof.
  induction ds as [|a ds IH]; intros H.
  - simpl. rewrite Ascii.eqb_refl. reflexivity.
  - assert (E : Ascii.eqb a c = false).
    { destruct (Ascii.eqb a c) eqn:E; [|reflexivity].
      apply Ascii.eqb_eq in E. exfalso. apply H. now left. }
    cbn [app Index HasPrefix]. rewrite E. cbn [andb].
    rewrite IH by (intros I; apply H; now right).
    destruct (Z.of_nat (List.length ds) <? 0) eqn:L; [apply Z.ltb_lt in L; lia|].
    simpl List.length. lia.
Qed.

(** A number of one or two ASCII digits. *)
Definition short_number (ds : gostring) : Prop :=
  (1 <= List.length ds <= 2)%nat /\ Forall (fun a => strconv.is_digit a = true) ds.

Lemma digit_not_sign a :
  strconv.is_digit a = true ->
  Ascii.eqb a "-" = false /\ Ascii.eqb a "+" = false.
Proof.
  intros D. split.
  - destruct (Ascii.eqb a "-") eqn:E; [|reflexivity].
    apply Ascii.eqb_eq in E. subst a. discriminate D.
  - destruct (Ascii.eqb a "+") eqn:E; [|reflexivity].
    apply Ascii.eqb_eq in E. subst a. discriminate D.
Qed.

Lemma Atoi_short_number ds : short_number ds -> exists n, strconv.Atoi ds = inl n.
Proof.
  intros [L D]. destruct ds as [|a [|b [|? ?]]]; simpl in L; try lia.
  - inversion D as [|? ? Da _]; subst.
    destruct (digit_not_sign a Da) as [E1 E2].
    unfold strconv.Atoi.
    cbn [len List.length Z.of_nat Pos.of_succ_nat Pos.succ Z.ltb Z.compare
         Pos.compare Pos.compare_cont andb].
    rewrite E1, E2. cbn [orb andb strconv.small_digits]. rewrite Da.
    eexists. reflexivity.
  - inversion D as [|? ? Da D']; subst. inversion D' as [|? ? Db _]; subst.
    destruct (digit_not_sign a Da) as [E1 E2].
    unfold strconv.Atoi.
    cbn [len List.length Z.of_nat Pos.of_succ_nat Pos.succ Z.ltb Z.compare
         Pos.compare Pos.compare_cont andb].
    rewrite E1, E2. cbn [orb andb strconv.small_digits]. rewrite Da.
    cbn [strconv.small_digits]. rewrite Db.
    eexists. reflexivity.
Qed.

Lemma short_number_no (c : ascii) ds :
  strconv.is_digit c = false -> short_number ds -> ~ In c ds.
Proof.
  intros Hc [_ D] I. rewrite Forall_forall in D. specialize (D c I). congruence.
Qed.

Lemma marker_short_number ds (c : ascii) rest :
  strconv.is_digit c = false -> short_number ds ->
  marker (ds ++ c :: rest) [c] = true /\
  slice_from (ds ++ c :: rest) (Index (ds ++ c :: rest) [c] + 1) = rest.
Proof.
  intros Hc N. pose proof (short_number_no c ds Hc N) as I.
  pose proof (Index_at_punct ds c rest I) as E.
  destruct N as [[L1 L2] D]. split.
  - apply marker_range. rewrite E. split; [lia|].
    unfold slice. rewrite Z.sub_0_r, Nat2Z.id. simpl skipn.
    rewrite firstn_app, firstn_all, Nat.sub_diag. simpl. rewrite app_nil_r.
    apply Atoi_short_number. split; [lia | exact D].
  - rewrite E. unfold slice_from.
    replace (Z.to_nat (Z.of_nat (List.length ds) + 1)) with (List.length ds + 1)%nat
      by lia.
    rewrite skipn_app, skipn_all2 by lia.
    replace (List.length ds + 1 - List.length ds)%nat with 1%nat by lia.
    reflexivity.
Qed.

Lemma no_period_marker ds rest :
  short_number ds -> marker (ds ++ ")"%char :: rest) ["."%char] = false.
Proof.
  intros N. destruct (marker _ _) eqn:M; [|reflexivity]. exfalso.
  apply marker_range in M as [[Hpos Hle] [n Hn]].
  set (q := ds ++ ")"%char :: rest) in *.
  pose proof (Index_found q ["."%char] Hpos) as F.
  unfold slice in Hn. rewrite Z.sub_0_r in Hn. simpl skipn in Hn.
  set (p := Z.to_nat (Index q ["."%char])) in *.
  assert (Lp : (p < List.length q)%nat).
  { assert (L : List.length q = List.length (firstn p q ++ ["."%char]
                                   ++ skipn (p + List.length ["."%char]) q))
      by (rewrite <- F; reflexivity).
    rewrite !length_app, length_firstn in L. simpl in L. lia. }
  assert (Lf : List.length (firstn p q) = p) by (rewrite length_firstn; lia).
  assert (V : nth_error q p = Some "."%char).
  { rewrite F. rewrite nth_error_app2 by lia. rewrite Lf, Nat.sub_diag. reflexivity. }
  assert (G : (List.length ds < p)%nat).
  { destruct (Nat.lt_trichotomy p (List.length ds)) as [L|[L|L]]; [| |exact L].
    - exfalso. unfold q in V. rewrite nth_error_app1 in V by exact L.
      apply nth_error_In in V.
      exact (short_number_no "."%char ds eq_refl N V).
    - exfalso. unfold q in V. rewrite nth_error_app2 in V by lia.
      rewrite L, Nat.sub_diag in V. discriminate V. }
  assert (I : In ")"%char (firstn p q)).
  { unfold q. rewrite firstn_app. apply in_or_app. right.
    replace (p - List.length ds)%nat with (S (p - List.length ds - 1)) by lia.
    now left. }
  assert (Lt : (List.length (firstn p q) <= 2)%nat) by (rewrite Lf; unfold p; lia).
  destruct (Atoi_short _ n Lt Hn _ I) as [H|[H|H]]; discriminate H.
Qed.

(** X13: a line numbered with one or two digits loses its number: with
    a period after the digits the result is the trimmed rest, provided
    the rest does not start with a parenthesis marker of its own; with a
    closing parenthesis after the digits and no white space at the ends
    of the line the result is the trimmed rest.  The numbered cases of
    the source's test are instances. *)
Theorem stripLeadingNumbers_numbered (ds rest : gostring) :
  short_number ds ->
  (marker (TrimSpace rest) (lit ")") = false ->
   stripLeadingNumbers (ds ++ "."%char :: rest) = TrimSpace rest) /\
  (trimmed (ds ++ ")"%char :: rest) ->
   stripLeadingNumbers (ds ++ ")"%char :: rest) = TrimSpace rest).
Proof.
  intros N. unfold stripLeadingNumbers.
  change (lit ".") with ["."%char]. change (lit ")") with [")"%char]. split.
  - intros M.
    destruct (marker_short_number ds "."%char rest eq_refl N) as [M1 S1].
    rewrite (stripLeadingNumber_marker (ds ++ "."%char :: rest)), M1, S1.
    apply stripLeadingNumber_no_marker; [apply TrimSpace_trimmed | exact M].
  - intros T.
    rewrite (stripLeadingNumber_no_marker _ ["."%char] T (no_period_marker ds rest N)).
    destruct (marker_short_number ds ")"%char rest eq_refl N) as [M1 S1].
    rewrite stripLeadingNumber_marker, M1, S1. reflexivity.
Qed.

Lemma stripLeadingNumbers_numbered_witness :
  let expected := lit "How has NetSuite helped you manage your construction business?" in
  stripLeadingNumbers
    (lit "3. How has NetSuite helped you manage your construction business?") = expected /\
  stripLeadingNumbers
    (lit "3.How has NetSuite helped you manage your construction business?") = expected /\
  stripLeadingNumbers
    (lit "3) How has NetSuite helped you manage your construction business?") = expected.
Proof.
  assert (N : short_number (lit "3")).
  { split; [simpl; lia | repeat constructor]. }
  split; [|split].
  - exact (proj1 (stripLeadingNumbers_numbered (lit "3")
             (lit " How has NetSuite helped you manage your construction business?") N)
             eq_refl).
  - exact (proj1 (stripLeadingNumbers_numbered (lit "3")
             (lit "How has NetSuite helped you manage your construction business?") N)
             eq_refl).
  - apply (proj2 (stripLeadingNumbers_numbered (lit "3")
             (lit " How has NetSuite helped you manage your construction business?") N)).
    split; reflexivity.
Defined.

End CleaningFacts.

(** ** Shuffling and parsing, in full *)

Module ShuffleFacts.
Import StringFacts StripFacts SettingsFacts ParserFacts.

Lemma store_at_app a x rest q :
  store_at (a ++ x :: rest) (List.length a) q = a ++ q :: rest.
Proof. induction a as [|y a IH]; simpl; [reflexivity | now rewrite IH]. Qed.

Lemma store_at_same questions : forall i x,
  nth_error questions i = Some x -> store_at questions i x = questions.
Proof.
  induction questions as [|q0 l IH]; intros [|i] x; simpl; try discriminate.
  - intros H. inversion H. reflexivity.
  - intros H. now rewrite IH.
Qed.

Lemma nth_error_two (questions : list InterviewQuestion) i j x y :
  (i < j)%nat ->
  nth_error questions i = Some x -> nth_error questions j = Some y ->
  exists a b c, questions = a ++ x :: b ++ y :: c /\
                List.length a = i /\ List.length (a ++ x :: b) = j.
Proof.
  intros Hij Hi Hj.
  apply nth_error_split in Hi as [a [l2 [-> La]]].
  rewrite nth_error_app2 in Hj by lia.
  replace (j - List.length a)%nat with (S (j - List.length a - 1)) in Hj by lia.
  simpl in Hj. apply nth_error_split in Hj as [b [c [-> Lb]]].
  exists a, b, c. repeat split; [exact La|].
  rewrite length_app. simpl. lia.
Qed.

(** The swap of [Shuffle] permutes the questions. *)
Lemma swap_Permutation questions i j x y :
  nth_error questions i = Some x -> nth_error questions j = Some y ->
  Permutation questions (store_at (store_at questions j x) i y).
Proof.
  intros Hi Hj. destruct (Nat.lt_trichotomy i j) as [L|[E|L]].
  - destruct (nth_error_two questions i j x y L Hi Hj) as [a [b [c [-> [La Lb]]]]].
    rewrite <- Lb.
    replace (a ++ x :: b ++ y :: c) with ((a ++ x :: b) ++ y :: c)
      by (rewrite <- app_assoc; reflexivity).
    rewrite (store_at_app (a ++ x :: b) y c x). rewrite <- !app_assoc. simpl.
    rewrite <- La, (store_at_app a x (b ++ x :: c) y).
    apply Permutation_app_head.
    apply Permutation_trans with (y :: x :: b ++ c).
    + apply (Permutation_sym (Permutation_middle (x :: b) c y)).
    + constructor. apply (Permutation_middle b c x).
  - subst j. rewrite Hi in Hj. inversion Hj; subst y.
    rewrite (store_at_same _ _ _ Hi), (store_at_same _ _ _ Hi). reflexivity.
  - destruct (nth_error_two questions j i y x L Hj Hi) as [a [b [c [-> [La Lb]]]]].
    rewrite <- La at 1. rewrite (store_at_app a y (b ++ x :: c) x).
    assert (Lb' : List.length (a ++ x :: b) = i)
      by (rewrite <- Lb, !length_app; reflexivity).
    rewrite <- Lb'.
    replace (a ++ x :: b ++ x :: c) with ((a ++ x :: b) ++ x :: c)
      by (rewrite <- app_assoc; reflexivity).
    rewrite (store_at_app (a ++ x :: b) x c y). rewrite <- !app_assoc. simpl.
    apply Permutation_app_head.
    apply Permutation_trans with (x :: y :: b ++ c).
    + apply Permutation_trans with (y :: x :: b ++ c); [|constructor].
      constructor. apply (Permutation_sym (Permutation_middle b c x)).
    + constructor. apply (Permutation_middle b c y).
Qed.

Lemma random_world rand_Int min max w r w' :
  random rand_Int min max w = Some (r, w') -> w' = drawn w.
Proof.
  unfold random, bind, rand_read.
  destruct (wrap64 (max - min) <=? 0); [discriminate|].
  destruct (rand_Int _ _); unfold ret; intros H; inversion H; reflexivity.
Qed.

Lemma index_at_value questions n i q w w' :
  index_at questions n i w = Some (q, w') ->
  nth_error questions (Z.to_nat i) = Some q.
Proof.
  unfold index_at. destruct ((0 <=? i) && (i <? Z.of_nat n)); [|discriminate].
  destruct (nth_error questions (Z.to_nat i)); [|discriminate].
  unfold deref, ret. intros H. inversion H. reflexivity.
Qed.

Lemma Shuffle_loop_Permutation rand_Int n : forall questions w result w',
  Shuffle_loop rand_Int n questions w = Some (result, w') ->
  Permutation questions result /\
  rand_reads w' = (rand_reads w + n)%nat /\
  completion_calls w' = completion_calls w /\
  clock_reads w' = clock_reads w.
Proof.
  induction n as [|n IH]; intros questions w result w'; cbn [Shuffle_loop].
  - unfold ret. intros H. inversion H; subst.
    repeat split; [reflexivity | lia].
  - unfold bind at 1.
    destruct (random rand_Int 0 (Z.of_nat (S n)) w) as [[r w1]|] eqn:Er;
      [|discriminate].
    apply random_world in Er. subst w1. unfold bind at 1.
    destruct (index_at questions (S n) r (drawn w)) as [[picked w2]|] eqn:E1;
      [|discriminate].
    pose proof (index_at_value _ _ _ _ _ _ E1) as V1.
    apply index_at_Some in E1 as [-> _]. unfold bind at 1.
    destruct (index_at questions (S n) (Z.of_nat n) (drawn w)) as [[last w3]|] eqn:E2;
      [|discriminate].
    pose proof (index_at_value _ _ _ _ _ _ E2) as V2.
    apply index_at_Some in E2 as [-> _]. rewrite Nat2Z.id in V2.
    intros H. apply IH in H as [P [R [C K]]].
    split; [|split; [|split]].
    + eapply Permutation_trans; [|exact P].
      apply swap_Permutation; assumption.
    + rewrite R. simpl. lia.
    + rewrite C. reflexivity.
    + rewrite K. reflexivity.
Qed.

(** X14: [Shuffle] returns a permutation of its argument after exactly
    one draw per question, and it does return when the source keeps its
    ranges and the slice has a length a Go slice can have. *)
Theorem Shuffle_permutes rand_Int (questions : list InterviewQuestion) (w : World) :
  (forall result w',
      Shuffle rand_Int questions w = Some (result, w') ->
      Permutation questions result /\
      rand_reads w' = (rand_reads w + List.length questions)%nat) /\
  (in_range rand_Int -> Z.of_nat (List.length questions) <= maxInt64 ->
   exists result w', Shuffle rand_Int questions w = Some (result, w')).
Proof.
  unfold Shuffle. split.
  - intros result w' H. apply Shuffle_loop_Permutation in H as [P [R _]]. auto.
  - intros R L. apply Shuffle_loop_total; [exact R | lia | exact L].
Qed.

Lemma Shuffle_permutes_witness :
  exists result w',
    Shuffle lowest_draws
      [ {| Index := 1; Question := lit "A?" |};
        {| Index := 2; Question := lit "B?" |};
        {| Index := 3; Question := lit "C?" |} ] world0 = Some (result, w') /\
    Permutation
      [ {| Index := 1; Question := lit "A?" |};
        {| Index := 2; Question := lit "B?" |};
        {| Index := 3; Question := lit "C?" |} ] result /\
    rand_reads w' = 3%nat.
Proof.
  destruct (proj2 (Shuffle_permutes lowest_draws
              [ {| Index := 1; Question := lit "A?" |};
                {| Index := 2; Question := lit "B?" |};
                {| Index := 3; Question := lit "C?" |} ] world0)
              lowest_draws_in_range ltac:(vm_compute; discriminate))
    as [result [w' E]].
  exists result, w'. split; [exact E|].
  exact (proj1 (Shuffle_permutes lowest_draws _ world0) result w' E).
Defined.

(** The cleaned texts of the pieces of a response text that pass the
    question-mark test, in order. *)
Definition parsed (text : gostring) : list gostring :=
  map parseText (filter retained (strings.Split text LF)).

(** Indices run from 1 without a gap. *)
Definition numbered (questions : list InterviewQuestion) : Prop :=
  map Index questions = map Z.of_nat (seq 1 (List.length questions)).

Lemma numbered_nil : numbered [].
Proof. reflexivity. Qed.

Lemma numbered_snoc questions text :
  numbered questions ->
  numbered (questions ++ [ {| Index := Z.of_nat (List.length questions) + 1;
                              Question := text |} ]).
Proof.
  unfold numbered. intros H. rewrite map_app, H, length_app. simpl.
  rewrite Nat.add_1_r, seq_S, map_app. simpl. repeat f_equal. lia.
Qed.

Lemma parse_parts_parsed parts : forall data,
  map Question (parse_parts parts data)
    = map Question data ++ map parseText (filter retained parts) /\
  (numbered data -> numbered (parse_parts parts data)).
Proof.
  induction parts as [|part parts IH]; intros data; simpl.
  - rewrite app_nil_r. auto.
  - destruct (retained part).
    + destruct (IH (data ++ [ {| Index := Z.of_nat (List.length data) + 1;
                                 Question := parseText part |} ])) as [E N].
      split.
      * rewrite E, map_app, <- app_assoc. reflexivity.
      * intros H. apply N, numbered_snoc, H.
    + apply IH.
Qed.

(** The parser without shuffling. *)
Lemma parseInterviewChoice_plain rand_Int (ch : CompletionChoice) (w : World) :
  exists data,
    parseInterviewChoice rand_Int ch false w = Some (data, w) /\
    map Question data = parsed (Text ch) /\
    numbered data.
Proof.
  rewrite parseInterviewChoice_data. cbv zeta.
  destruct (parse_parts_parsed (strings.Split (Text ch) LF) []) as [E N].
  specialize (N numbered_nil). simpl in E. fold (parsed (Text ch)) in E.
  destruct (Z.of_nat (List.length (parse_parts (strings.Split (Text ch) LF) []))
            =? 0) eqn:Z0.
  - exists []. split; [reflexivity|]. split; [|reflexivity].
    apply Z.eqb_eq in Z0.
    destruct (parse_parts (strings.Split (Text ch) LF) []); [exact E|].
    simpl in Z0. lia.
  - eexists. split; [reflexivity|]. split; assumption.
Qed.

(** X15: without shuffling the parser returns, in order and numbered
    from 1, exactly the cleaned text of every piece between line feeds
    that is non-empty and ends with a question mark; it draws nothing
    from the random source. *)
Theorem parseInterviewChoice_in_order rand_Int (ch : CompletionChoice) (w : World) :
  exists data,
    parseInterviewChoice rand_Int ch false w = Some (data, w) /\
    map Question data = parsed (Text ch) /\
    numbered data.
Proof. exact (parseInterviewChoice_plain rand_Int ch w). Qed.

(** The parser with shuffling. *)
Lemma parseInterviewChoice_permuted rand_Int (ch : CompletionChoice)
    (w : World) (data : list InterviewQuestion) (w' : World) :
  parseInterviewChoice rand_Int ch true w = Some (data, w') ->
  exists plain,
    parseInterviewChoice rand_Int ch false w = Some (plain, w) /\
    Permutation plain data /\
    rand_reads w' = (rand_reads w + List.length plain)%nat.
Proof.
  rewrite !parseInterviewChoice_data. cbv zeta.
  destruct (Z.of_nat (List.length (parse_parts (strings.Split (Text ch) LF) []))
            =? 0).
  - unfold ret. intros H. inversion H; subst. exists [].
    repeat split; [reflexivity | simpl; lia].
  - unfold Shuffle. intros H.
    apply Shuffle_loop_Permutation in H as [P [R _]].
    eexists. split; [reflexivity|]. split; assumption.
Qed.

(** X16: with shuffling the parser returns a permutation of what it
    returns without, each question keeping the number of its line, after
    one draw per question. *)
Theorem parseInterviewChoice_shuffled rand_Int (ch : CompletionChoice)
    (w : World) (data : list InterviewQuestion) (w' : World) :
  parseInterviewChoice rand_Int ch true w = Some (data, w') ->
  exists plain,
    parseInterviewChoice rand_Int ch false w = Some (plain, w) /\
    Permutation plain data /\
    rand_reads w' = (rand_reads w + List.length plain)%nat.
Proof. exact (parseInterviewChoice_permuted rand_Int ch w data w'). Qed.

Lemma parseInterviewChoice_shuffled_witness :
  exists plain,
    parseInterviewChoice lowest_draws numbered_lines false world0
      = Some (plain, world0) /\
    Permutation plain
      [ {| Index := 2; Question := lit "Why me?" |};
        {| Index := 3; Question := lit "How?" |};
        {| Index := 1; Question := lit "What?" |} ] /\
    (3 = rand_reads world0 + List.length plain)%nat.
Proof.
  apply (parseInterviewChoice_shuffled lowest_draws numbered_lines world0
           [ {| Index := 2; Question := lit "Why me?" |};
             {| Index := 3; Question := lit "How?" |};
             {| Index := 1; Question := lit "What?" |} ]
           {| rand_reads := 3; completion_calls := []; clock_reads := 0 |}).
  vm_compute. reflexivity.
Defined.

End ShuffleFacts.

(** ** Runs of the orchestrator, in full *)

Module RunFacts.
Import StringFacts StripFacts SettingsFacts ParserFacts OrchestratorFacts ShuffleFacts.

(** What a cap lets through: everything when it is negative, because the
    loop's stop test never matches, and the first [cap] otherwise. *)
Definition limit {A} (quesCap : Z) (l : list A) : list A :=
  if quesCap <? 0 then l else firstn (Z.to_nat quesCap) l.

Lemma firstn_firstn_app {A} (n : nat) : forall (l l' : list A),
  firstn n (firstn n l ++ l') = firstn n (l ++ l').
Proof.
  induction n as [|n IH]; intros l l'; [reflexivity|].
  destruct l as [|a l]; simpl; [reflexivity|]. now rewrite IH.
Qed.

Lemma limit_limit_app {A} quesCap (l l' : list A) :
  limit quesCap (limit quesCap l ++ l') = limit quesCap (l ++ l').
Proof.
  unfold limit. destruct (quesCap <? 0); [reflexivity | apply firstn_firstn_app].
Qed.

Lemma take_items_texts quesCap items : forall questions,
  quesCap < 0 \/ Z.of_nat (List.length questions) <= quesCap ->
  map Question (take_items quesCap items questions)
    = limit quesCap (map Question questions ++ map Question items).
Proof.
  unfold limit.
  induction items as [|qu items IH]; intros questions H; simpl.
  - rewrite app_nil_r. destruct (quesCap <? 0) eqn:N; [reflexivity|].
    apply Z.ltb_ge in N. symmetry. apply firstn_all2. rewrite length_map. lia.
  - destruct (Z.of_nat (List.length questions) =? quesCap) eqn:E.
    + apply Z.eqb_eq in E.
      destruct (quesCap <? 0) eqn:N; [apply Z.ltb_lt in N; lia|].
      rewrite firstn_app.
      replace (Z.to_nat quesCap - List.length (map Question questions))%nat with O
        by (rewrite length_map; lia).
      rewrite firstn_all2 by (rewrite length_map; lia).
      simpl. now rewrite app_nil_r.
    + apply Z.eqb_neq in E. rewrite IH.
      * rewrite map_app, <- app_assoc. reflexivity.
      * destruct H as [H|H]; [now left | right].
        rewrite length_app. simpl. lia.
Qed.

Lemma take_items_kept quesCap items : forall questions,
  (numbered questions -> numbered (take_items quesCap items questions)) /\
  (forall q, In q (take_items quesCap items questions) ->
             In (Question q) (map Question questions ++ map Question items)).
Proof.
  induction items as [|qu items IH]; intros questions; simpl.
  - split; [auto|]. intros q H. rewrite app_nil_r. apply in_map, H.
  - destruct (Z.of_nat (List.length questions) =? quesCap).
    + split; [auto|]. intros q H. apply in_or_app. left. apply in_map, H.
    + destruct (IH (questions ++ [ {| Index := Z.of_nat (List.length questions) + 1;
                                      Question := Question qu |} ])) as [N I].
      split.
      * intros H. apply N, numbered_snoc, H.
      * intros q H. specialize (I q H).
        rewrite map_app, <- app_assoc in I. exact I.
Qed.

Lemma parseInterviewChoice_any rand_Int ch shuffle w items w' :
  parseInterviewChoice rand_Int ch shuffle w = Some (items, w') ->
  (forall q, In q items -> In (Question q) (parsed (Text ch))) /\
  completion_calls w' = completion_calls w /\
  clock_reads w' = clock_reads w.
Proof.
  destruct shuffle.
  - intros H. destruct (parseInterviewChoice_permuted _ _ _ _ _ H) as [plain [E [P _]]].
    destruct (parseInterviewChoice_plain rand_Int ch w) as [data [E' [T _]]].
    rewrite E in E'. inversion E'; subst data. clear E'.
    split.
    + intros q Hq. rewrite <- T. apply in_map.
      exact (Permutation_in q (Permutation_sym P) Hq).
    + revert H. rewrite parseInterviewChoice_data. cbv zeta.
      destruct (_ =? 0).
      * unfold ret. intros H. inversion H. auto.
      * unfold Shuffle. intros H.
        apply Shuffle_loop_Permutation in H as [_ [_ [C K]]]. auto.
  - destruct (parseInterviewChoice_plain rand_Int ch w) as [data [E [T _]]].
    rewrite E. intros H. inversion H; subst. split; [|auto].
    intros q Hq. rewrite <- T. apply in_map, Hq.
Qed.

(** All the cleaned question lines of a response, choice after choice. *)
Definition all_parsed (resp : CompletionResponse) : list gostring :=
  List.concat (map (fun ch => parsed (Text ch)) (Choices resp)).

Lemma take_choices_any rand_Int quesCap shuffle choices :
  forall questions w result w',
    take_choices rand_Int quesCap shuffle choices questions w = Some (result, w') ->
    (numbered questions -> numbered result) /\
    (forall q, In q result ->
       In (Question q)
          (map Question questions
             ++ List.concat (map (fun ch => parsed (Text ch)) choices))) /\
    completion_calls w' = completion_calls w /\
    clock_reads w' = clock_reads w.
Proof.
  induction choices as [|ch choices IH]; intros questions w result w'; simpl.
  - unfold ret. intros H. inversion H; subst. rewrite app_nil_r.
    repeat split; auto. intros q Hq. apply in_map, Hq.
  - unfold bind at 1.
    destruct (parseInterviewChoice rand_Int ch shuffle w) as [[items w1]|] eqn:E;
      [|discriminate].
    apply parseInterviewChoice_any in E as [I [C K]].
    intros H. apply IH in H as [N [J [C' K']]].
    destruct (take_items_kept quesCap items questions) as [N0 I0].
    split; [auto|]. split; [|split; congruence].
    intros q Hq. specialize (J q Hq). apply in_app_or in J as [J|J].
    + apply in_map_iff in J as [q0 [<- J]]. specialize (I0 q0 J).
      apply in_app_or in I0 as [I0|I0]; apply in_or_app; [now left | right].
      apply in_or_app. left. apply in_map_iff in I0 as [q1 [<- I1]]. apply I, I1.
    + apply in_or_app. right. apply in_or_app. now right.
Qed.

Lemma take_choices_plain rand_Int quesCap choices : forall questions w,
  quesCap < 0 \/ Z.of_nat (List.length questions) <= quesCap ->
  exists result,
    take_choices rand_Int quesCap false choices questions w = Some (result, w) /\
    map Question result
      = limit quesCap (map Question questions
                         ++ List.concat (map (fun ch => parsed (Text ch)) choices)).
Proof.
  induction choices as [|ch choices IH]; intros questions w H; simpl.
  - exists questions. split; [reflexivity|]. rewrite app_nil_r.
    unfold limit. destruct (quesCap <? 0) eqn:N; [reflexivity|].
    apply Z.ltb_ge in N. symmetry. apply firstn_all2. rewrite length_map. lia.
  - unfold bind at 1.
    destruct (parseInterviewChoice_plain rand_Int ch w) as [data [E [T _]]].
    rewrite E.
    destruct (IH (take_items quesCap data questions) w) as [result [R M]].
    { destruct H as [H|H]; [now left | right]. apply take_items_length, H. }
    exists result. split; [exact R|].
    rewrite M, take_items_texts by exact H.
    rewrite limit_limit_app, T, <- app_assoc. reflexivity.
Qed.

(** The world after a request has gone to the completion service. *)
Definition called (request : CompletionRequest) (w : World) : World :=
  {| rand_reads := rand_reads w;
     completion_calls := completion_calls w ++ [request];
     clock_reads := clock_reads w |}.

Definition prompt_of (input : InterviewInput) : gostring :=
  getInterviewPrompt (trimStr (JobTitle input)) (trimStr (JobDescription input)).

Lemma mapInterviewSettings_inv settings prompt w request w1 :
  mapInterviewSettings settings prompt w = Some (request, w1) ->
  w1 = w /\
  cr_Model request = Engine settings /\ cr_Prompt request = prompt /\
  cr_User request = User settings /\
  cr_FrequencyPenalty request = FrequencyPenalty settings /\
  cr_PresencePenalty request = PresencePenalty settings /\
  MaxTokens settings = Some (cr_MaxTokens request) /\
  Temperature settings = Some (cr_Temperature request) /\
  TopP settings = Some (cr_TopP request) /\
  cr_N request = 1 /\ cr_Echo request = false /\ cr_Stream request = false.
Proof.
  unfold mapInterviewSettings, bind, deref, ret, panic.
  destruct (MaxTokens settings); [|discriminate].
  destruct (Temperature settings); [|discriminate].
  destruct (TopP settings); [|discriminate].
  intros H. inversion H; subst. simpl. repeat split.
Qed.

(** Every successful run went this way. *)
Lemma InterviewQuestions_inl rand_Int CreateCompletion time_Now
    input settings options w r s' w' :
  InterviewQuestions rand_Int CreateCompletion time_Now input settings options w
    = Some ((inl r, s'), w') ->
  exists s request resp w2,
    settings = Some s /\ s' = Some (fill_engine s) /\
    ~ both_empty input /\
    mapInterviewSettings (fill_engine s) (prompt_of input) (clocked w)
      = Some (request, clocked w) /\
    CreateCompletion request = inl resp /\
    take_choices rand_Int (effective_cap options) (Shuffle_flag (resolved options))
      (Choices resp) [] (called request (clocked w)) = Some (Questions r, w2) /\
    w' = clocked w2 /\
    Request r = {| Prompt := prompt_of input; Settings := fill_engine s |} /\
    Options r = Some (resolved options) /\
    Duration r = wrap64 (time_Now (clock_reads w2) - time_Now (clock_reads w)).
Proof.
  unfold InterviewQuestions. unfold bind at 1, now at 1. fold (clocked w).
  destruct ((len (trimStr (JobTitle input)) =? 0)
            && (len (trimStr (JobDescription input)) =? 0)) eqn:B.
  { unfold ret. intros H. inversion H. }
  destruct settings as [s|]; [|unfold ret; intros H; inversion H].
  fold (resolved options). rewrite GetCap_effective. fold (prompt_of input).
  unfold bind at 1.
  destruct (mapInterviewSettings (fill_engine s) (prompt_of input) (clocked w))
    as [[request w1]|] eqn:M; [|discriminate].
  pose proof (mapInterviewSettings_inv _ _ _ _ _ M) as [-> _].
  unfold bind at 1, call_completion at 1. fold (called request (clocked w)).
  destruct (CreateCompletion request) as [resp|err] eqn:C;
    [|unfold ret; intros H; inversion H].
  unfold bind at 1.
  destruct (take_choices _ _ _ _ _ _) as [[questions w2]|] eqn:E; [|discriminate].
  unfold bind, now, ret. intros H. inversion H; subst. simpl.
  exists s, request, resp, w2. repeat split; try assumption; try reflexivity.
  intros B'. apply both_empty_test in B'. congruence.
Qed.

Lemma fill_engine_nonempty s : Engine (fill_engine s) <> [].
Proof.
  unfold fill_engine. destruct (len (Engine s) =? 0) eqn:E.
  - discriminate.
  - intros H. rewrite H in E. discriminate.
Qed.

(** X17: every successful run has sent exactly one request, and that
    request is the mapping of the default-filled settings and the built
    prompt, field for field: model, prompt, user, both penalties, max
    tokens, temperature and top-p as in the settings, one completion, no
    echo, no streaming.  The response echoes that prompt and those
    settings, whose engine is never empty, and the resolved options; the
    caller's settings object is left default-filled and the clock has
    been read twice. *)
Theorem InterviewQuestions_protocol rand_Int CreateCompletion time_Now
    input settings options w r s' w' :
  InterviewQuestions rand_Int CreateCompletion time_Now input settings options w
    = Some ((inl r, s'), w') ->
  exists s request,
    settings = Some s /\ s' = Some (fill_engine s) /\
    completion_calls w' = completion_calls w ++ [request] /\
    (forall w0, mapInterviewSettings (fill_engine s) (prompt_of input) w0
                = Some (request, w0)) /\
    request = {| cr_Model := Engine (fill_engine s);
                 cr_Prompt := prompt_of input;
                 cr_MaxTokens := cr_MaxTokens request;
                 cr_Temperature := cr_Temperature request;
                 cr_TopP := cr_TopP request;
                 cr_N := 1;
                 cr_Stream := false;
                 cr_Echo := false;
                 cr_PresencePenalty := PresencePenalty s;
                 cr_FrequencyPenalty := FrequencyPenalty s;
                 cr_User := User s |} /\
    MaxTokens s = Some (cr_MaxTokens request) /\
    Temperature s = Some (cr_Temperature request) /\
    TopP s = Some (cr_TopP request) /\
    Prompt (Request r) = prompt_of input /\
    Settings (Request r) = fill_engine s /\
    Engine (Settings (Request r)) <> [] /\
    Options r = Some (resolved options) /\
    clock_reads w' = (clock_reads w + 2)%nat.
Proof.
  intros H.
  apply InterviewQuestions_inl in H
    as [s [request [resp [w2 [-> [-> [_ [M [_ [T [-> [ER [EO _]]]]]]]]]]]]].
  pose proof (mapInterviewSettings_world _ _ _ _ _ M) as MW.
  apply mapInterviewSettings_inv in M
    as [_ [HM [HP [HU [HF [HPP [HMT [HT [HTP [HN [HE HS]]]]]]]]]]].
  apply take_choices_any in T as [_ [_ [C K]]].
  assert (FE : forall A (g : InterviewRequestSettings -> A),
             (forall e x, g (set_Engine x e) = g x) -> g (fill_engine s) = g s).
  { intros A g Hg. unfold fill_engine.
    destruct (len (Engine s) =? 0); [apply Hg | reflexivity]. }
  rewrite (FE _ User) in HU by reflexivity.
  rewrite (FE _ FrequencyPenalty) in HF by reflexivity.
  rewrite (FE _ PresencePenalty) in HPP by reflexivity.
  rewrite (FE _ MaxTokens) in HMT by reflexivity.
  rewrite (FE _ Temperature) in HT by reflexivity.
  rewrite (FE _ TopP) in HTP by reflexivity.
  exists s, request. rewrite ER. simpl.
  repeat split; try assumption.
  - destruct request. simpl in *. subst. reflexivity.
  - apply fill_engine_nonempty.
  - rewrite K. simpl. lia.
Qed.

Lemma InterviewQuestions_protocol_witness :
  exists r s' w',
    InterviewQuestions lowest_draws (answer seven_lines) milliseconds engineer
      (Some (set_Engine (NewInterviewSettings (lit "user-1")) [])) None world0
      = Some ((inl r, s'), w') /\
    s' = Some (NewInterviewSettings (lit "user-1")) /\
    completion_calls w'
      = [ {| cr_Model := InterviewDefaultEngine;
             cr_Prompt := lit "Create a list of questions for my interview with a Senior Engineer";
             cr_MaxTokens := 175;
             cr_Temperature := f32.one;
             cr_TopP := f32.const 85 100;
             cr_N := 1;
             cr_Stream := false;
             cr_Echo := false;
             cr_PresencePenalty := f32.const 7 10;
             cr_FrequencyPenalty := f32.const 75 100;
             cr_User := lit "user-1" |} ] /\
    Settings (Request r) = NewInterviewSettings (lit "user-1") /\
    clock_reads w' = 2%nat.
Proof.
  destruct (InterviewQuestions lowest_draws (answer seven_lines) milliseconds engineer
              (Some (set_Engine (NewInterviewSettings (lit "user-1")) [])) None world0)
    as [[[[r|e] s'] w']|] eqn:E.
  - destruct (InterviewQuestions_protocol _ _ _ _ _ _ _ _ _ _ E)
      as [s [request [Hs [Hs' [HC [_ [HR [HM [HT [HP [_ [HSet [_ [_ HK]]]]]]]]]]]]]].
    inversion Hs; subst s. exists r, s', w'.
    split; [reflexivity|]. split; [exact Hs'|]. split; [|split; [exact HSet | exact HK]].
    rewrite HC, HR. simpl in HM, HT, HP.
    injection HM as HM'. injection HT as HT'. injection HP as HP'.
    rewrite <- HM', <- HT', <- HP'. reflexivity.
  - vm_compute in E. discriminate.
  - vm_compute in E. discriminate.
Defined.

Lemma parsed_well_formed text t :
  In t (parsed text) -> t <> [] /\ ends_qmark t.
Proof.
  unfold parsed. rewrite in_map_iff. intros [part [<- H]].
  apply filter_In in H as [_ H]. apply retained_true in H as [H _].
  apply parseText_ends_qmark in H. split; [apply ends_qmark_nonempty|]; exact H.
Qed.

(** X18: in every successful run, shuffled or not, the returned questions
    are numbered 1, 2, ... without a gap, and each one is the cleaned text
    of a question line of the response the service gave to the request
    sent, so it is non-empty and ends with a question mark. *)
Theorem InterviewQuestions_questions rand_Int CreateCompletion time_Now
    input settings options w r s' w' :
  InterviewQuestions rand_Int CreateCompletion time_Now input settings options w
    = Some ((inl r, s'), w') ->
  exists request resp,
    In request (completion_calls w') /\
    CreateCompletion request = inl resp /\
    numbered (Questions r) /\
    forall q, In q (Questions r) ->
      In (Question q) (all_parsed resp) /\ well_formed q.
Proof.
  intros H.
  apply InterviewQuestions_inl in H
    as [s [request [resp [w2 [-> [-> [_ [_ [C [T [-> _]]]]]]]]]]].
  apply take_choices_any in T as [N [I [K _]]].
  exists request, resp. split.
  { simpl. rewrite K. simpl. apply in_or_app. right. now left. }
  split; [exact C|]. split; [apply N, numbered_nil|].
  intros q Hq. specialize (I q Hq). simpl in I. split; [exact I|].
  unfold all_parsed in I. apply in_concat in I as [l [Hl Ht]].
  apply in_map_iff in Hl as [ch [<- _]].
  exact (parsed_well_formed _ _ Ht).
Qed.

Lemma InterviewQuestions_questions_witness :
  exists r s' w' request resp,
    InterviewQuestions lowest_draws (answer seven_lines) milliseconds engineer
      (Some (NewInterviewSettings (lit "user-1")))
      (Some {| Cap := Some 3; Shuffle_flag := true |}) world0
      = Some ((inl r, s'), w') /\
    In request (completion_calls w') /\
    answer seven_lines request = inl resp /\
    numbered (Questions r) /\
    forall q, In q (Questions r) ->
      In (Question q) (all_parsed resp) /\ well_formed q.
Proof.
  destruct (InterviewQuestions lowest_draws (answer seven_lines) milliseconds engineer
              (Some (NewInterviewSettings (lit "user-1")))
              (Some {| Cap := Some 3; Shuffle_flag := true |}) world0)
    as [[[[r|e] s'] w']|] eqn:E.
  - destruct (InterviewQuestions_questions _ _ _ _ _ _ _ _ _ _ E)
      as [request [resp H]].
    exists r, s', w', request, resp. split; [reflexivity | exact H].
  - vm_compute in E. discriminate.
  - vm_compute in E. discriminate.
Defined.

(** X19: when the settings map to a request, the service answers it and
    shuffling is off, the run succeeds without touching the random source
    and returns the cleaned question lines of the response in their
    order, numbered from 1: the first [cap] of them for an effective cap
    of zero or more, all of them for a negative one. *)
Theorem InterviewQuestions_in_order rand_Int CreateCompletion time_Now
    input settings options w request resp :
  ~ both_empty input ->
  mapInterviewSettings (fill_engine settings) (prompt_of input) w
    = Some (request, w) ->
  CreateCompletion request = inl resp ->
  Shuffle_flag (resolved options) = false ->
  exists r w',
    InterviewQuestions rand_Int CreateCompletion time_Now
      input (Some settings) options w
      = Some ((inl r, Some (fill_engine settings)), w') /\
    map Question (Questions r) = limit (effective_cap options) (all_parsed resp) /\
    numbered (Questions r) /\
    rand_reads w' = rand_reads w.
Proof.
  intros Hin Hmap Hcall Hsh.
  unfold InterviewQuestions. unfold bind at 1, now at 1. fold (clocked w).
  destruct ((len (trimStr (JobTitle input)) =? 0)
            && (len (trimStr (JobDescription input)) =? 0)) eqn:T.
  { apply both_empty_test in T. contradiction. }
  fold (resolved options). rewrite GetCap_effective, Hsh. fold (prompt_of input).
  unfold bind at 1.
  rewrite (mapInterviewSettings_world _ _ _ _ _ Hmap).
  unfold bind at 1, call_completion at 1. rewrite Hcall.
  fold (called request (clocked w)).
  destruct (take_choices_plain rand_Int (effective_cap options) (Choices resp) []
              (called request (clocked w))) as [result [E M]].
  { simpl. lia. }
  unfold bind at 1. rewrite E.
  unfold bind, now, ret. eexists; eexists. split; [reflexivity|].
  simpl. split; [exact M|]. split; [|reflexivity].
  apply take_choices_any in E as [N _]. apply N, numbered_nil.
Qed.

Lemma InterviewQuestions_in_order_witness :
  exists r w',
    InterviewQuestions lowest_draws (answer seven_lines) milliseconds engineer
      (Some (NewInterviewSettings (lit "user-1")))
      (Some {| Cap := Some 3; Shuffle_flag := false |}) world0
      = Some ((inl r, Some (fill_engine (NewInterviewSettings (lit "user-1")))), w') /\
    map Question (Questions r) = [lit "A?"; lit "B?"; lit "C?"] /\
    numbered (Questions r) /\
    rand_reads w' = rand_reads world0.
Proof.
  destruct (InterviewQuestions_in_order lowest_draws (answer seven_lines)
              milliseconds engineer (NewInterviewSettings (lit "user-1"))
              (Some {| Cap := Some 3; Shuffle_flag := false |}) world0
              {| cr_Model := InterviewDefaultEngine;
                 cr_Prompt := lit "Create a list of questions for my interview with a Senior Engineer";
                 cr_MaxTokens := 175;
                 cr_Temperature := f32.one;
                 cr_TopP := f32.const 85 100;
                 cr_N := 1;
                 cr_Stream := false;
                 cr_Echo := false;
                 cr_PresencePenalty := f32.const 7 10;
                 cr_FrequencyPenalty := f32.const 75 100;
                 cr_User := lit "user-1" |}
              {| Choices := [ {| Text := seven_lines; FinishReason := lit "stop" |} ] |})
    as [r [w' [E [Q [N R]]]]].
  - intros [T _]. vm_compute in T. discriminate.
  - reflexivity.
  - reflexivity.
  - reflexivity.
  - exists r, w'. repeat split; assumption.
Defined.

(** X20: an error of the completion call is returned as it is, after
    that one request and with no retry; the caller's settings have been
    default-filled all the same and the random source is untouched. *)
Theorem InterviewQuestions_call_error rand_Int CreateCompletion time_Now
    input settings options w request err :
  ~ both_empty input ->
  mapInterviewSettings (fill_engine settings) (prompt_of input) w
    = Some (request, w) ->
  CreateCompletion request = inr err ->
  exists w',
    InterviewQuestions rand_Int CreateCompletion time_Now
      input (Some settings) options w
      = Some ((inr err, Some (fill_engine settings)), w') /\
    completion_calls w' = completion_calls w ++ [request] /\
    rand_reads w' = rand_reads w.
Proof.
  intros Hin Hmap Hcall.
  unfold InterviewQuestions. unfold bind at 1, now at 1. fold (clocked w).
  destruct ((len (trimStr (JobTitle input)) =? 0)
            && (len (trimStr (JobDescription input)) =? 0)) eqn:T.
  { apply both_empty_test in T. contradiction. }
  fold (prompt_of input). unfold bind at 1.
  rewrite (mapInterviewSettings_world _ _ _ _ _ Hmap).
  unfold bind at 1, call_completion at 1. rewrite Hcall.
  unfold ret. eexists. split; [reflexivity|]. split; reflexivity.
Qed.

(** A completion service that refuses every request. *)
Definition refusing : CompletionRequest -> CompletionResponse + error :=
  fun _ => inr (completion_error (lit "quota exceeded")).

Lemma InterviewQuestions_call_error_witness :
  exists w',
    InterviewQuestions lowest_draws refusing milliseconds engineer
      (Some (NewInterviewSettings (lit "user-1"))) None world0
      = Some ((inr (completion_error (lit "quota exceeded")),
               Some (fill_engine (NewInterviewSettings (lit "user-1")))), w') /\
    List.length (completion_calls w') = 1%nat /\
    rand_reads w' = rand_reads world0.
Proof.
  destruct (InterviewQuestions_call_error lowest_draws refusing milliseconds
              engineer (NewInterviewSettings (lit "user-1")) None world0
              {| cr_Model := InterviewDefaultEngine;
                 cr_Prompt := lit "Create a list of questions for my interview with a Senior Engineer";
                 cr_MaxTokens := 175;
                 cr_Temperature := f32.one;
                 cr_TopP := f32.const 85 100;
                 cr_N := 1;
                 cr_Stream := false;
                 cr_Echo := false;
                 cr_PresencePenalty := f32.const 7 10;
                 cr_FrequencyPenalty := f32.const 75 100;
                 cr_User := lit "user-1" |}
              (completion_error (lit "quota exceeded")))
    as [w' [E [C R]]].
  - intros [T _]. vm_compute in T. discriminate.
  - reflexivity.
  - reflexivity.
  - exists w'. split; [exact E|]. split; [rewrite C; reflexivity | exact R].
Defined.

(** X21: with a usable input and settings in which max tokens,
    temperature or top-p is nil, the run panics on the nil pointer while
    mapping the settings: it returns neither a response nor an error. *)
Theorem InterviewQuestions_nil_field rand_Int CreateCompletion time_Now
    input settings options w :
  ~ both_empty input ->
  MaxTokens settings = None \/ Temperature settings = None \/ TopP settings = None ->
  InterviewQuestions rand_Int CreateCompletion time_Now
    input (Some settings) options w = None.
Proof.
  intros Hin Hnil.
  unfold InterviewQuestions. unfold bind at 1, now at 1.
  destruct ((len (trimStr (JobTitle input)) =? 0)
            && (len (trimStr (JobDescription input)) =? 0)) eqn:T.
  { apply both_empty_test in T. contradiction. }
  unfold bind at 1.
  assert (M : forall p w0, mapInterviewSettings (fill_engine settings) p w0 = None).
  { intros p w0. unfold mapInterviewSettings, bind, deref, panic, fill_engine.
    destruct (len (Engine settings) =? 0); simpl;
      destruct (MaxTokens settings); try reflexivity;
      destruct (Temperature settings); try reflexivity;
      destruct (TopP settings); try reflexivity;
      destruct Hnil as [H|[H|H]]; discriminate. }
  rewrite M. reflexivity.
Qed.

Lemma InterviewQuestions_nil_field_witness :
  InterviewQuestions lowest_draws (answer seven_lines) milliseconds engineer
    (Some {| Engine := []; FrequencyPenalty := f32.one; MaxTokens := Some 175;
             PresencePenalty := f32.one; Temperature := None;
             TopP := Some f32.one; User := lit "user-1" |})
    None world0 = None.
Proof.
  apply InterviewQuestions_nil_field.
  - intros [T _]. vm_compute in T. discriminate.
  - right. left. reflexivity.
Defined.

(** *** The text of a response *)

Lemma QuestionText_loop_long questions : forall index sb,
  (forall q, In q questions ->
             index + Z.of_nat (List.length questions) < len (Question q)) ->
  QuestionText_loop index questions sb
    = sb ++ List.concat (map (fun q => Question q ++ [LF; LF]) questions).
Proof.
  induction questions as [|r questions IH]; intros index sb H; simpl.
  - now rewrite app_nil_r.
  - assert (E : (index + 1 <? len (Question r)) = true).
    { apply Z.ltb_lt. specialize (H r (or_introl eq_refl)). simpl in H. lia. }
    rewrite E, IH.
    + rewrite <- !app_assoc. reflexivity.
    + intros q Hq. specialize (H q (or_intror Hq)). simpl in H. lia.
Qed.

Lemma QuestionText_loop_short questions : forall index sb,
  0 <= index ->
  (forall q, In q questions -> len (Question q) <= 1) ->
  QuestionText_loop index questions sb
    = sb ++ List.concat (map Question questions).
Proof.
  induction questions as [|r questions IH]; intros index sb Hi H; simpl.
  - now rewrite app_nil_r.
  - assert (E : (index + 1 <? len (Question r)) = false).
    { apply Z.ltb_ge. specialize (H r (or_introl eq_refl)). lia. }
    rewrite E, IH; [|lia|].
    + rewrite <- !app_assoc. reflexivity.
    + intros q Hq. apply H. now right.
Qed.

(** X22: [QuestionText] compares a question's position with the length
    of its own text: when every question is longer in bytes than there
    are questions, each question, the last one too, is followed by a
    blank line; questions of at most one byte are joined with nothing in
    between; and a nil response panics. *)
Theorem QuestionText_separators (r : InterviewResponse) :
  ((forall q, In q (Questions r) ->
              Z.of_nat (List.length (Questions r)) < len (Question q)) ->
   QuestionText (Some r)
     = Some (List.concat (map (fun q => Question q ++ [LF; LF]) (Questions r)))) /\
  ((forall q, In q (Questions r) -> len (Question q) <= 1) ->
   QuestionText (Some r) = Some (List.concat (map Question (Questions r)))) /\
  QuestionText None = None.
Proof.
  unfold QuestionText. split; [|split; [|reflexivity]].
  - intros H. f_equal. rewrite QuestionText_loop_long; [reflexivity|].
    intros q Hq. specialize (H q Hq). lia.
  - intros H. f_equal. rewrite QuestionText_loop_short; [reflexivity | lia | exact H].
Qed.

Lemma QuestionText_separators_witness :
  QuestionText
    (Some {| Request := {| Prompt := []; Settings := NewInterviewSettings [] |};
             Duration := 0; Options := None;
             Questions := [ {| Index := 1; Question := lit "Why?" |};
                            {| Index := 2; Question := lit "How?" |} ] |})
  = Some (lit "Why?" ++ [LF; LF] ++ lit "How?" ++ [LF; LF]).
Proof.
  rewrite (proj1 (QuestionText_separators _)).
  - reflexivity.
  - intros q [<-|[<-|[]]]; vm_compute; reflexivity.
Defined.

End RunFacts.
